(** * DDRenamer: the drag-and-drop batch dispatcher of [src/App.tsx]

    The front end receives a drop event carrying an ordered list of paths,
    builds one rename command per path from the configuration snapshot held
    in [configRef.current], sends each command to the back end with
    [invoke("handle_rename", { path, cmd })], awaits the answer, and records
    one log entry per path.

    Modelling conventions.
    - JavaScript numbers that the component handles are counters moved by
      one unit at a time from small initial values; they are modelled as
      [Z], on which [+ 1] is exact.
    - The back end (file system, clock) is an explicit [World] threaded
      through every [invoke]; the command handler behind [invoke] is a
      parameter of the development.
    - The component is modelled twice.  In the first machine ([step],
      [run]) every event handler runs to completion, and the render it
      schedules (with its effects) settles, before the next event is taken:
      it describes the event sequences in which nothing happens while a
      drop is in flight, drops being serialised as section 5 of the
      specification requires of the caller.  The second machine
      ([async_step], [async_run]) takes the drop handler as the
      asynchronous function it is, one [await] at a time, with controls,
      further drops and changes of the world arriving in between; the first
      machine is its uninterrupted case. *)

From Stdlib Require Import ZArith List String Ascii Bool Lia DecimalString DecimalZ
  Permutation.
Import ListNotations.

Open Scope Z_scope.
Open Scope string_scope.

(** ** Types *)

(** [type RenameMode = "fixed" | "serial" | "replace" | "add" | "trim" | "extension"] *)
Inductive RenameMode : Type :=
| fixed | serial | replace | add | trim | extension.

(** The [useState<"start" | "end">] values. *)
Inductive Position : Type :=
| pos_start | pos_end.

Definition Position_eqb (a b : Position) : bool :=
  match a, b with
  | pos_start, pos_start => true
  | pos_end, pos_end => true
  | _, _ => false
  end.

(** [interface LogEntry] *)
Record LogEntry : Type := mkLogEntry {
  le_id : string;
  le_path : string;
  le_status : string;
  le_timestamp : string;
  le_success : bool
}.

(** The per-mode [config] records of the command payload. *)
Module FixedConfig.
Record t : Type := mk { name : string; keep_ext : bool }.
End FixedConfig.

Module SerialConfig.
Record t : Type := mk {
  prefix : string;
  suffix : string;
  number : Z;
  pad : Z;
  keep_ext : bool;
  keep_original : bool
}.
End SerialConfig.

Module ReplaceConfig.
Record t : Type := mk { from : string; to : string; use_regex : bool }.
End ReplaceConfig.

Module AddConfig.
Record t : Type := mk { text : string; position : Position }.
End AddConfig.

Module TrimConfig.
Record t : Type := mk { count : Z; position : Position }.
End TrimConfig.

Module ExtensionConfig.
Record t : Type := mk { new_ext : string }.
End ExtensionConfig.

(** [{ mode: "...", config: {...} }], one constructor per [mode] tag. *)
Inductive Cmd : Type :=
| Fixed (config : FixedConfig.t)
| Serial (config : SerialConfig.t)
| Replace (config : ReplaceConfig.t)
| Add (config : AddConfig.t)
| Trim (config : TrimConfig.t)
| Extension (config : ExtensionConfig.t).

(** The object stored in [configRef.current]; the same eighteen values are
    the component's React state. *)
Record Config : Type := mkConfig {
  activeTab : RenameMode;
  fixedName : string;
  keepExt : bool;
  serialText : string;
  serialPosition : Position;
  serialStart : Z;
  serialPad : Z;
  removeOriginal : bool;
  manualIncrement : bool;
  currentManualCount : Z;
  replaceFrom : string;
  replaceTo : string;
  useRegex : bool;
  addText : string;
  addPos : Position;
  trimCount : Z;
  trimPos : Position;
  newExtension : string
}.

(** What [await invoke("handle_rename", ...)] resolves to. *)
Record RenameResult : Type := mkResult {
  res_path : string;
  res_status : string;
  res_new_name : option string
}.

(** What the [catch (e: unknown)] clause may receive: an [Error] object
    with its [message], or any other value with its [String(e)] rendering. *)
Inductive Thrown : Type :=
| ErrorObject (message : string)
| OtherValue (rendering : string).

Inductive Outcome : Type :=
| Resolved (res : RenameResult)
| Rejected (e : Thrown).

(** Payload of a Tauri drag-drop event. *)
Inductive DragDropPayload : Type :=
| enter (paths : list string)
| over
| drop (paths : list string)
| leave.

(** ** The command built for one path (the [switch (activeTab)]) *)

(** Lines 147-190.  [activeTab] ranges over the six tags of [RenameMode],
    so the [default: continue] arm is never taken. *)
Definition build_cmd (cfg : Config) (num : Z) : Cmd :=
  match activeTab cfg with
  | fixed =>
      Fixed (FixedConfig.mk (fixedName cfg) (keepExt cfg))
  | serial =>
      Serial (SerialConfig.mk
                (if Position_eqb (serialPosition cfg) pos_start then serialText cfg else "")
                (if Position_eqb (serialPosition cfg) pos_end then serialText cfg else "")
                num
                (serialPad cfg)
                (keepExt cfg)
                (negb (removeOriginal cfg)))
  | replace =>
      Replace (ReplaceConfig.mk (replaceFrom cfg) (replaceTo cfg) (useRegex cfg))
  | add =>
      Add (AddConfig.mk (addText cfg) (addPos cfg))
  | trim =>
      Trim (TrimConfig.mk (trimCount cfg) (trimPos cfg))
  | extension =>
      Extension (ExtensionConfig.mk (newExtension cfg))
  end.

(** Line 144: [const num = cfg.manualIncrement ? currentSeq : cfg.serialStart + i]. *)
Definition seq_num (cfg : Config) (i currentSeq : Z) : Z :=
  if manualIncrement cfg then currentSeq else serialStart cfg + i.

(** Line 145: [if (cfg.manualIncrement) currentSeq++]. *)
Definition seq_next (cfg : Config) (currentSeq : Z) : Z :=
  if manualIncrement cfg then currentSeq + 1 else currentSeq.

(** Line 138: the value [currentSeq] starts from. *)
Definition seq_init (cfg : Config) : Z :=
  if manualIncrement cfg then currentManualCount cfg else serialStart cfg.

(** ** Log entries *)

Definition show_number (z : Z) : string :=
  NilEmpty.string_of_int (Z.to_int z).

(** [const message = e instanceof Error ? e.message : String(e)] *)
Definition message_of (e : Thrown) : string :=
  match e with
  | ErrorObject m => m
  | OtherValue r => r
  end.

(** The [status] text of lines 200-205; an absent or empty [new_name] is
    falsy. *)
Definition status_text (res : RenameResult) : string :=
  if String.eqb (res_status res) "Success" then
    match res_new_name res with
    | Some n => if String.eqb n "" then "成功" else "-> " ++ n
    | None => "成功"
    end
  else res_status res.

(** The entry unshifted in the [try] branch. *)
Definition entry_of_result (id ts : string) (res : RenameResult) : LogEntry :=
  mkLogEntry id (res_path res) (status_text res) ts
             (String.eqb (res_status res) "Success").

(** The entry unshifted in the [catch] branch. *)
Definition entry_of_error (id ts filePath : string) (e : Thrown) : LogEntry :=
  mkLogEntry id filePath ("Error: " ++ message_of e) ts false.

(** ** The dispatch loop *)

Section Dispatcher.

(** The world behind the webview: file system and clock. *)
Variable World : Type.
(** [invoke("handle_rename", { path, cmd })], awaited. *)
Variable invoke : World -> string -> Cmd -> World * Outcome.
(** [Date.now()] and [new Date().toLocaleTimeString()]. *)
Variable dateNow : World -> Z.
Variable localeTimeString : World -> string.

(** [nextLogId]: the id, and the advanced module-level [logIdCounter]. *)
Definition nextLogId (w : World) (logIdCounter : Z) : string * Z :=
  ("log-" ++ show_number (dateNow w) ++ "-" ++ show_number logIdCounter,
   logIdCounter + 1).

(** The variables live across iterations of the [for] loop. *)
Record LoopState : Type := mkLoop {
  world : World;
  logIdCounter : Z;
  newLogs : list LogEntry;
  currentSeq : Z
}.

(** One iteration, lines 141-218, for [filePath = paths[i]]. *)
Definition loop_body (cfg : Config) (i : Z) (filePath : string)
           (st : LoopState) : LoopState :=
  let num := seq_num cfg i (currentSeq st) in
  let seq' := seq_next cfg (currentSeq st) in
  let cmd := build_cmd cfg num in
  let (w', out) := invoke (world st) filePath cmd in
  let (id, counter') := nextLogId w' (logIdCounter st) in
  let entry :=
    match out with
    | Resolved res => entry_of_result id (localeTimeString w') res
    | Rejected e => entry_of_error id (localeTimeString w') filePath e
    end in
  mkLoop w' counter' (entry :: newLogs st) seq'.

(** [for (let i = 0; i < paths.length; i++)], entered at index [i] with
    [paths] the elements still to be visited. *)
Fixpoint loop (cfg : Config) (paths : list string) (i : Z)
         (st : LoopState) : LoopState :=
  match paths with
  | [] => st
  | filePath :: rest => loop cfg rest (i + 1) (loop_body cfg i filePath st)
  end.

End Dispatcher.

Arguments mkLoop {World}.
Arguments world {World}.
Arguments logIdCounter {World}.
Arguments newLogs {World}.
Arguments currentSeq {World}.

(** ** Component state and its setters *)

(** A call of one of the [useState] setters of the configuration values. *)
Inductive Update : Type :=
| setActiveTab (v : RenameMode)
| setFixedName (v : string)
| setKeepExt (v : bool)
| setSerialText (v : string)
| setSerialPosition (v : Position)
| setSerialStart (v : Z)
| setSerialPad (v : Z)
| setRemoveOriginal (v : bool)
| setManualIncrement (v : bool)
| setCurrentManualCount (v : Z)
| setReplaceFrom (v : string)
| setReplaceTo (v : string)
| setUseRegex (v : bool)
| setAddText (v : string)
| setAddPos (v : Position)
| setTrimCount (v : Z)
| setTrimPos (v : Position)
| setNewExtension (v : string).

Definition apply_update (u : Update) (c : Config) : Config :=
  let '(mkConfig tab fx ke stx sps sst spd ro mi cmc rf rt ur atx aps tc tps ne) := c in
  match u with
  | setActiveTab v => mkConfig v fx ke stx sps sst spd ro mi cmc rf rt ur atx aps tc tps ne
  | setFixedName v => mkConfig tab v ke stx sps sst spd ro mi cmc rf rt ur atx aps tc tps ne
  | setKeepExt v => mkConfig tab fx v stx sps sst spd ro mi cmc rf rt ur atx aps tc tps ne
  | setSerialText v => mkConfig tab fx ke v sps sst spd ro mi cmc rf rt ur atx aps tc tps ne
  | setSerialPosition v => mkConfig tab fx ke stx v sst spd ro mi cmc rf rt ur atx aps tc tps ne
  | setSerialStart v => mkConfig tab fx ke stx sps v spd ro mi cmc rf rt ur atx aps tc tps ne
  | setSerialPad v => mkConfig tab fx ke stx sps sst v ro mi cmc rf rt ur atx aps tc tps ne
  | setRemoveOriginal v => mkConfig tab fx ke stx sps sst spd v mi cmc rf rt ur atx aps tc tps ne
  | setManualIncrement v => mkConfig tab fx ke stx sps sst spd ro v cmc rf rt ur atx aps tc tps ne
  | setCurrentManualCount v => mkConfig tab fx ke stx sps sst spd ro mi v rf rt ur atx aps tc tps ne
  | setReplaceFrom v => mkConfig tab fx ke stx sps sst spd ro mi cmc v rt ur atx aps tc tps ne
  | setReplaceTo v => mkConfig tab fx ke stx sps sst spd ro mi cmc rf v ur atx aps tc tps ne
  | setUseRegex v => mkConfig tab fx ke stx sps sst spd ro mi cmc rf rt v atx aps tc tps ne
  | setAddText v => mkConfig tab fx ke stx sps sst spd ro mi cmc rf rt ur v aps tc tps ne
  | setAddPos v => mkConfig tab fx ke stx sps sst spd ro mi cmc rf rt ur atx v tc tps ne
  | setTrimCount v => mkConfig tab fx ke stx sps sst spd ro mi cmc rf rt ur atx aps v tps ne
  | setTrimPos v => mkConfig tab fx ke stx sps sst spd ro mi cmc rf rt ur atx aps tc v ne
  | setNewExtension v => mkConfig tab fx ke stx sps sst spd ro mi cmc rf rt ur atx aps tc tps v
  end.

(** The [useState] initial values. *)
Definition initial_config : Config :=
  {| activeTab := fixed;
     fixedName := "";
     keepExt := true;
     serialText := "Img_";
     serialPosition := pos_start;
     serialStart := 1;
     serialPad := 3;
     removeOriginal := false;
     manualIncrement := false;
     currentManualCount := 1;
     replaceFrom := "";
     replaceTo := "";
     useRegex := false;
     addText := "";
     addPos := pos_end;
     trimCount := 1;
     trimPos := pos_end;
     newExtension := "jpg" |}.

(** The component: its React state, the [configRef] ref and the
    module-level [logIdCounter]. *)
Record AppState : Type := mkApp {
  state : Config;
  logs : list LogEntry;
  showLogs : bool;
  isDragOver : bool;
  configRef : Config;
  idCounter : Z
}.

Definition initial_app : AppState :=
  mkApp initial_config [] false false initial_config 0.

(** ** Effects run after a render *)

(** Lines 100-104, with dependency list [[serialStart, manualIncrement]]:
    the effect body runs when one of the two differs from the previous
    render, and then calls [setCurrentManualCount(serialStart)] unless
    manual mode is on. *)
Definition sync_effect (prev cur : Config) : Config :=
  if negb (Z.eqb (serialStart prev) (serialStart cur))
     || negb (Bool.eqb (manualIncrement prev) (manualIncrement cur))
  then
    if negb (manualIncrement cur)
    then apply_update (setCurrentManualCount (serialStart cur)) cur
    else cur
  else cur.

(** A render following state [prev]: the sync effect may schedule one more
    render, and the effect of lines 84-97 leaves the settled values in
    [configRef.current]. *)
Definition render (prev : Config) (s : AppState) : AppState :=
  let c := sync_effect prev (state s) in
  mkApp c (logs s) (showLogs s) (isDragOver s) c (idCounter s).

(** A setter call from an event handler, followed by the render. *)
Definition set_config (u : Update) (s : AppState) : AppState :=
  render (state s)
         (mkApp (apply_update u (state s)) (logs s) (showLogs s)
                (isDragOver s) (configRef s) (idCounter s)).

Definition setIsDragOver (b : bool) (s : AppState) : AppState :=
  mkApp (state s) (logs s) (showLogs s) b (configRef s) (idCounter s).

Definition setShowLogs (b : bool) (s : AppState) : AppState :=
  mkApp (state s) (logs s) b (isDragOver s) (configRef s) (idCounter s).

(** [setLogs((prev) => [...newLogs, ...prev].slice(0, 50))] *)
Definition setLogs (newLogs : list LogEntry) (s : AppState) : AppState :=
  mkApp (state s) (firstn 50 (newLogs ++ logs s)%list) (showLogs s)
        (isDragOver s) (configRef s) (idCounter s).

(** ** The controls of the configuration panel *)

Inductive UiEvent : Type :=
| SelectTab (id : RenameMode)
| TypeFixedName (v : string)
| CheckKeepExt (v : bool)
| TypeSerialText (v : string)
| SelectSerialPosition (v : Position)
| SerialStartDown
| SerialStartUp
| SerialPadDown
| SerialPadUp
| CheckRemoveOriginal (v : bool)
| CheckManualIncrement (v : bool)
| TypeReplaceFrom (v : string)
| TypeReplaceTo (v : string)
| CheckUseRegex (v : bool)
| TypeAddText (v : string)
| SelectAddPos (v : Position)
| TrimCountDown
| TrimCountUp
| SelectTrimPos (v : Position)
| TypeNewExtension (v : string)
| ToggleLogs.

(** The setter call each control's handler makes, given the values of the
    render in which the handler was created. *)
Definition ui_update (e : UiEvent) (c : Config) : option Update :=
  match e with
  | SelectTab id => Some (setActiveTab id)
  | TypeFixedName v => Some (setFixedName v)
  | CheckKeepExt v => Some (setKeepExt v)
  | TypeSerialText v => Some (setSerialText v)
  | SelectSerialPosition v => Some (setSerialPosition v)
  | SerialStartDown => Some (setSerialStart (Z.max 0 (serialStart c - 1)))
  | SerialStartUp => Some (setSerialStart (serialStart c + 1))
  | SerialPadDown => Some (setSerialPad (Z.max 1 (serialPad c - 1)))
  | SerialPadUp => Some (setSerialPad (serialPad c + 1))
  | CheckRemoveOriginal v => Some (setRemoveOriginal v)
  | CheckManualIncrement v => Some (setManualIncrement v)
  | TypeReplaceFrom v => Some (setReplaceFrom v)
  | TypeReplaceTo v => Some (setReplaceTo v)
  | CheckUseRegex v => Some (setUseRegex v)
  | TypeAddText v => Some (setAddText v)
  | SelectAddPos v => Some (setAddPos v)
  | TrimCountDown => Some (setTrimCount (Z.max 0 (trimCount c - 1)))
  | TrimCountUp => Some (setTrimCount (trimCount c + 1))
  | SelectTrimPos v => Some (setTrimPos v)
  | TypeNewExtension v => Some (setNewExtension v)
  | ToggleLogs => None
  end.

Definition on_ui (e : UiEvent) (s : AppState) : AppState :=
  match ui_update e (state s) with
  | Some u => set_config u s
  | None => setShowLogs (negb (showLogs s)) s
  end.

(** ** The drag-drop handler and the event loop *)

Section Handler.

Variable World : Type.
Variable invoke : World -> string -> Cmd -> World * Outcome.
Variable dateNow : World -> Z.
Variable localeTimeString : World -> string.

(** The loop state on entry, lines 137-138. *)
Definition loop_entry (cfg : Config) (s : AppState) (w : World)
  : LoopState World :=
  mkLoop w (idCounter s) [] (seq_init cfg).

(** Lines 134-225: the body run for a non-empty drop. *)
Definition process_drop (paths : list string) (s : AppState) (w : World)
  : AppState * World :=
  let cfg := configRef s in
  let st := loop World invoke dateNow localeTimeString cfg paths 0
                 (loop_entry cfg s w) in
  let s1 := setLogs (newLogs st) s in
  let s2 := mkApp (state s1) (logs s1) (showLogs s1) (isDragOver s1)
                  (configRef s1) (logIdCounter st) in
  (if manualIncrement cfg
   then set_config (setCurrentManualCount (currentSeq st)) s2
   else s2,
   world st).

(** The callback given to [webview.onDragDropEvent], lines 116-226. *)
Definition onDragDropEvent (payload : DragDropPayload) (s : AppState)
           (w : World) : AppState * World :=
  match payload with
  | enter _ => (setIsDragOver true s, w)
  | drop paths =>
      let s0 := setIsDragOver false s in
      match paths with
      | [] => (s0, w)
      | _ :: _ => process_drop paths s0 w
      end
  | over | leave => (setIsDragOver false s, w)
  end.

(** What can happen to the running application: a control is used, the
    webview reports a drag-drop event, or the outside world moves on. *)
Inductive Event : Type :=
| Ui (e : UiEvent)
| DragDrop (payload : DragDropPayload)
| Elapse (w' : World).

(** One event, with a drag-drop event taken together with all the promise
    resolutions of its handler: nothing else happens while a drop is in
    flight.  [async_step] below lifts this restriction. *)
Definition step (ev : Event) (sw : AppState * World) : AppState * World :=
  match ev with
  | Ui e => (on_ui e (fst sw), snd sw)
  | DragDrop payload => onDragDropEvent payload (fst sw) (snd sw)
  | Elapse w' => (fst sw, w')
  end.

(** The application after a sequence of events, oldest first. *)
Definition run (evs : list Event) (sw : AppState * World)
  : AppState * World :=
  fold_left (fun acc ev => step ev acc) evs sw.

End Handler.

Arguments Ui {World}.
Arguments DragDrop {World}.
Arguments Elapse {World}.

(** ** Observing the calls made to the back end *)

(** A call as the back end sees it: the path and the command. *)
Definition Call : Type := (string * Cmd)%type.

(** The same back end, keeping a journal of the calls it receives, oldest
    first.  The dispatcher is parametric in its world, so running it on
    the journalled world shows which calls it makes and in which order. *)
Definition recording {World : Type}
           (invoke : World -> string -> Cmd -> World * Outcome)
  : World * list Call -> string -> Cmd -> (World * list Call) * Outcome :=
  fun wj filePath cmd =>
    let (w', out) := invoke (fst wj) filePath cmd in
    ((w', (snd wj ++ [(filePath, cmd)])%list), out).

Definition on_world {World A : Type} (f : World -> A)
  : World * list Call -> A :=
  fun wj => f (fst wj).

(** The calls made while handling [drop paths] in state [s]. *)
Definition calls_of_drop {World : Type}
           (invoke : World -> string -> Cmd -> World * Outcome)
           (dateNow : World -> Z) (localeTimeString : World -> string)
           (paths : list string) (s : AppState) (w : World) : list Call :=
  snd (snd (onDragDropEvent (World * list Call) (recording invoke)
                            (on_world dateNow) (on_world localeTimeString)
                            (drop paths) s (w, []))).

(** The loop state on entry to iteration [i] of the loop started in [st0]. *)
Definition state_before {World : Type}
           (invoke : World -> string -> Cmd -> World * Outcome)
           (dateNow : World -> Z) (localeTimeString : World -> string)
           (cfg : Config) (paths : list string) (st0 : LoopState World)
           (i : nat) : LoopState World :=
  loop World invoke dateNow localeTimeString cfg (firstn i paths) 0 st0.

(** The value of [num] in iteration [i]. *)
Definition num_at {World : Type}
           (invoke : World -> string -> Cmd -> World * Outcome)
           (dateNow : World -> Z) (localeTimeString : World -> string)
           (cfg : Config) (paths : list string) (st0 : LoopState World)
           (i : nat) : Z :=
  seq_num cfg (Z.of_nat i)
          (currentSeq (state_before invoke dateNow localeTimeString
                                    cfg paths st0 i)).


(** The entries collected by the loop of a drop, as handed to [setLogs]. *)
Definition entries_of_drop {World : Type}
           (invoke : World -> string -> Cmd -> World * Outcome)
           (dateNow : World -> Z) (localeTimeString : World -> string)
           (paths : list string) (s : AppState) (w : World) : list LogEntry :=
  newLogs (loop World invoke dateNow localeTimeString (configRef s) paths 0
                (loop_entry World (configRef s) s w)).

(** The loop state with the journal taken away. *)
Definition forget {World : Type} (st : LoopState (World * list Call))
  : LoopState World :=
  mkLoop (fst (world st)) (logIdCounter st) (newLogs st) (currentSeq st).

(** The calls the loop makes for [paths] when entered at index [i] with
    [currentSeq = cs]: lines 144-145 and the [switch], iteration by
    iteration. *)
Fixpoint calls_from (cfg : Config) (paths : list string) (i cs : Z)
  : list Call :=
  match paths with
  | [] => []
  | filePath :: rest =>
      (filePath, build_cmd cfg (seq_num cfg i cs))
        :: calls_from cfg rest (i + 1) (seq_next cfg cs)
  end.

(** The entry unshifted by iteration [i] when it starts in loop state [st]
    with [filePath = paths[i]]: lines 192-218. *)
Definition iteration_entry {World : Type}
           (invoke : World -> string -> Cmd -> World * Outcome)
           (dateNow : World -> Z) (localeTimeString : World -> string)
           (cfg : Config) (i : Z) (filePath : string) (st : LoopState World)
  : LogEntry :=
  let r := invoke (world st) filePath
                  (build_cmd cfg (seq_num cfg i (currentSeq st))) in
  let id := fst (nextLogId World dateNow (fst r) (logIdCounter st)) in
  match snd r with
  | Resolved res => entry_of_result id (localeTimeString (fst r)) res
  | Rejected e => entry_of_error id (localeTimeString (fst r)) filePath e
  end.

(** The value of [num] in iteration [i] of the loop run for a drop. *)
Definition num_of_drop {World : Type}
           (invoke : World -> string -> Cmd -> World * Outcome)
           (dateNow : World -> Z) (localeTimeString : World -> string)
           (paths : list string) (s : AppState) (w : World) (i : nat) : Z :=
  num_at invoke dateNow localeTimeString (configRef s) paths
         (loop_entry World (configRef s) s w) i.

(** ** The rename engine, as the specification describes it

    The command handler behind [invoke("handle_rename", ...)] is the Rust back
    end, which is not part of the front end's sources.  Its pure part (name
    splitting, the six transformers, the empty-name check) is modelled here
    from sections 3, 4.1, 4.2 and 4.4 of the specification. *)

(** Modelled from the spec: [FileNameComponents], the back end's
    [{ stem, extension|absent }] record (section 3). *)
Record FileNameComponents : Type := mkComponents {
  stem : string;
  extension_of : option string
}.

(** The extension marker. *)
Definition dot : ascii := "."%char.

(** Modelled from the spec: the back end's search for "the last [.]" of a
    name (section 3); gives the text before it and the text after it. *)
Fixpoint split_last_dot (s : string) : option (string * string) :=
  match s with
  | EmptyString => None
  | String c rest =>
      match split_last_dot rest with
      | Some (before, after) => Some (String c before, after)
      | None => if Ascii.eqb c dot then Some (EmptyString, rest) else None
      end
  end.

(** Modelled from the spec: the back end's Name Splitter [split] (sections 3
    and 4.1), on the final path segment: the extension is what follows the
    last [.]; a name without [.], or whose only [.] is its first character,
    has none. *)
Definition split_name (name : string) : FileNameComponents :=
  match split_last_dot name with
  | Some (EmptyString, _) => mkComponents name None
  | Some (before, after) => mkComponents before (Some after)
  | None => mkComponents name None
  end.

(** A run of [n] characters [0]. *)
Fixpoint zeros (n : nat) : string :=
  match n with
  | O => ""
  | S n' => String "0"%char (zeros n')
  end.

(** Modelled from the spec: the back end's [zero_padded] (section 4.2,
    Serial): base 10, left-padded with [0] to [pad] digits at least, never
    truncated. *)
Definition zero_padded (number pad : Z) : string :=
  let digits := show_number number in
  zeros (Z.to_nat pad - String.length digits) ++ digits.

(** Modelled from the spec: the back end's literal replacement (section 4.2,
    Replace with [use_regex] false): every occurrence of [from], scanning
    left to right; [skip] counts the characters of a match still to be
    dropped.  An empty [from] occurs nowhere. *)
Fixpoint replace_from (from to s : string) (skip : nat) : string :=
  match s with
  | EmptyString => EmptyString
  | String c rest =>
      match skip with
      | S k => replace_from from to rest k
      | O =>
          if negb (String.eqb from "") && String.prefix from s
          then to ++ replace_from from to rest (String.length from - 1)
          else String c (replace_from from to rest O)
      end
  end.

(** Modelled from the spec: the back end's literal Replace on a stem,
    started outside any match. *)
Definition replace_literal (from to s : string) : string :=
  replace_from from to s O.

(** Modelled from the spec: the back end's Trim (section 4.2): [count]
    characters removed from the chosen end of the stem, the empty stem when
    [count] exceeds its length. *)
Definition trim_stem (count : Z) (position : Position) (s : string) : string :=
  let n := Z.to_nat count in
  match position with
  | pos_start => String.substring n (String.length s - n) s
  | pos_end => String.substring 0 (String.length s - n) s
  end.

(** Modelled from the spec: the back end's handling of [new_ext] (section
    4.2, Extension): leading [.] stripped. *)
Fixpoint strip_leading_dots (s : string) : string :=
  match s with
  | String c rest => if Ascii.eqb c dot then strip_leading_dots rest else s
  | EmptyString => EmptyString
  end.

(** Modelled from the spec: the failures the back end can report before it
    touches the file system (section 7). *)
Inductive NameError : Type :=
| EmptyName
| InvalidPattern.

(** Modelled from the spec: whether the back end reattaches the original
    extension under a command (section 4.2): [keep_ext] decides for Fixed
    and Serial; Replace, Add and Trim never touch it. *)
Definition preserves_extension (cmd : Cmd) : bool :=
  match cmd with
  | Fixed c => FixedConfig.keep_ext c
  | Serial c => SerialConfig.keep_ext c
  | Replace _ | Add _ | Trim _ => true
  | Extension _ => false
  end.

(** Whether the command is the one mode allowed to change the extension. *)
Definition is_extension_mode (cmd : Cmd) : bool :=
  match cmd with
  | Extension _ => true
  | _ => false
  end.

Section Engine.

(** The regular-expression replacement of the back end's regex library:
    [None] when the pattern does not compile. *)
Variable regex_replace_all : string -> string -> string -> option string.

(** Modelled from the spec: the back end's Mode Transformers (section 4.2),
    giving the candidate new stem. *)
Definition transform_stem (cmd : Cmd) (c : FileNameComponents)
  : NameError + string :=
  match cmd with
  | Fixed f => inr (FixedConfig.name f)
  | Serial f =>
      inr (SerialConfig.prefix f
           ++ (if SerialConfig.keep_original f then stem c else "")
           ++ zero_padded (SerialConfig.number f) (SerialConfig.pad f)
           ++ SerialConfig.suffix f)
  | Replace f =>
      if ReplaceConfig.use_regex f
      then match regex_replace_all (ReplaceConfig.from f) (ReplaceConfig.to f) (stem c) with
           | Some s => inr s
           | None => inl InvalidPattern
           end
      else inr (replace_literal (ReplaceConfig.from f) (ReplaceConfig.to f) (stem c))
  | Add f =>
      match AddConfig.position f with
      | pos_start => inr (AddConfig.text f ++ stem c)
      | pos_end => inr (stem c ++ AddConfig.text f)
      end
  | Trim f => inr (trim_stem (TrimConfig.count f) (TrimConfig.position f) (stem c))
  | Extension _ => inr (stem c)
  end.

(** Modelled from the spec: the extension the back end attaches to the new
    stem (section 4.2). *)
Definition new_extension (cmd : Cmd) (c : FileNameComponents) : option string :=
  match cmd with
  | Extension f => Some (strip_leading_dots (ExtensionConfig.new_ext f))
  | _ => if preserves_extension cmd then extension_of c else None
  end.

(** Modelled from the spec: the back end's assembly of a file name from
    its components (section 3): [stem + "." + extension] when there is an
    extension, the stem alone otherwise. *)
Definition join_name (new_stem : string) (ext : option string) : string :=
  match ext with
  | Some e => new_stem ++ String dot e
  | None => new_stem
  end.

(** Modelled from the spec: the back end's pipeline up to the file system
    (sections 2 and 4.4): split, transform, reject an empty computed stem,
    assemble the new name. *)
Definition compute_name (cmd : Cmd) (name : string) : NameError + string :=
  let c := split_name name in
  match transform_stem cmd c with
  | inl err => inl err
  | inr new_stem =>
      if String.eqb new_stem "" then inl EmptyName
      else inr (join_name new_stem (new_extension cmd c))
  end.

End Engine.

(** ** The relation the sync effect maintains *)

(** Outside manual mode the stored counter equals [serialStart]. *)
Definition synced (c : Config) : Prop :=
  manualIncrement c = false -> currentManualCount c = serialStart c.

(** ** A sample back end

    A world that counts the calls it has served and answers them with the
    engine above (no regular expressions); a call for the empty path is
    rejected.  Used to run the dispatcher on concrete drops. *)

Definition no_regex (pattern replacement subject : string) : option string :=
  None.

Definition sample_invoke (w : nat) (filePath : string) (cmd : Cmd)
  : nat * Outcome :=
  (S w,
   if String.eqb filePath "" then Rejected (OtherValue "no such file")
   else match compute_name no_regex cmd filePath with
        | inr new_name => Resolved (mkResult filePath "Success" (Some new_name))
        | inl EmptyName => Resolved (mkResult filePath "EmptyName" None)
        | inl InvalidPattern => Resolved (mkResult filePath "InvalidPattern" None)
        end).

Definition sample_dateNow (w : nat) : Z := 1700000000000 + Z.of_nat w.

Definition sample_localeTimeString (w : nat) : string := "12:00:00".

(** The application after the Serial tab is selected. *)
Definition sample_serial_app : AppState :=
  on_ui (SelectTab serial) initial_app.

(** The same with the manual-increment box ticked. *)
Definition sample_manual_app : AppState :=
  on_ui (CheckManualIncrement true) sample_serial_app.

(** ** Notions used to state further properties of the component *)

(** The id [nextLogId] builds from a clock reading and a counter value. *)
Definition log_id (now counter : Z) : string :=
  "log-" ++ show_number now ++ "-" ++ show_number counter.

(** Whether the character [ch] occurs in [s]. *)
Fixpoint mentions (ch : ascii) (s : string) : bool :=
  match s with
  | EmptyString => false
  | String c rest => Ascii.eqb c ch || mentions ch rest
  end.

(** A log, newest first, whose ids were built by [nextLogId] from counter
    values that are non-negative, below [k], and strictly smaller from one
    entry to the next older one. *)
Fixpoint ids_descend (k : Z) (l : list LogEntry) : Prop :=
  match l with
  | [] => True
  | e :: older =>
      exists now c, le_id e = log_id now c /\ 0 <= c < k /\ ids_descend c older
  end.

(** The ranges the stepper buttons of lines 314-324 and 420-422 keep. *)
Definition bounded (c : Config) : Prop :=
  0 <= serialStart c /\ 1 <= serialPad c /\ 0 <= trimCount c
  /\ 0 <= currentManualCount c.

(** The ranges a command is expected to respect. *)
Definition cmd_in_range (cmd : Cmd) : Prop :=
  match cmd with
  | Serial c => 0 <= SerialConfig.number c /\ 1 <= SerialConfig.pad c
  | Trim c => 0 <= TrimConfig.count c
  | _ => True
  end.

(** ** The drop handler as an asynchronous function

    The callback of lines 116-226 is [async]: it runs up to its first
    [await invoke(...)], and each time the awaited promise resolves it runs
    on to the next [await], or to the end.  Between two such runs other
    events are handled.  The machine below takes the handler in these
    pieces; the back end is taken to serve a call at the moment its promise
    resolves. *)

(** A handler suspended at [await invoke(...)]: its snapshot [cfg], the
    paths from [paths[i]] on, and its local variables. *)
Record Suspended : Type := mkSuspended {
  sp_cfg : Config;
  sp_rest : list string;
  sp_i : Z;
  sp_newLogs : list LogEntry;
  sp_currentSeq : Z
}.

(** The module-level [logIdCounter] after a call of [nextLogId]. *)
Definition with_idCounter (c : Z) (a : AppState) : AppState :=
  mkApp (state a) (logs a) (showLogs a) (isDragOver a) (configRef a) c.

(** Lines 221-225, run when the loop has ended in loop state [st]:
    [setLogs] on the log as it is then, and [setCurrentManualCount] when
    the snapshot was taken in manual mode. *)
Definition commit_drop {World : Type} (cfg : Config) (st : LoopState World)
           (a : AppState) : AppState :=
  let a1 := with_idCounter (logIdCounter st) (setLogs (newLogs st) a) in
  if manualIncrement cfg
  then set_config (setCurrentManualCount (currentSeq st)) a1
  else a1.

Definition remove_nth {A : Type} (k : nat) (l : list A) : list A :=
  (firstn k l ++ skipn (S k) l)%list.

Definition replace_nth {A : Type} (k : nat) (x : A) (l : list A) : list A :=
  (firstn k l ++ x :: skipn (S k) l)%list.

(** The controls used while drops are in flight, in order. *)
Definition ui_fold (es : list UiEvent) (a : AppState) : AppState :=
  fold_left (fun acc e => on_ui e acc) es a.

(** What happens between the start of a drop and its end, seen from that
    drop: a control is used, or the drop's awaited promise resolves. *)
Inductive Tick : Type :=
| TUi (e : UiEvent)
| TResume.

Fixpoint ticks_ui (ts : list Tick) : list UiEvent :=
  match ts with
  | [] => []
  | TUi e :: rest => e :: ticks_ui rest
  | TResume :: rest => ticks_ui rest
  end.

Fixpoint ticks_resumes (ts : list Tick) : nat :=
  match ts with
  | [] => O
  | TUi _ :: rest => ticks_resumes rest
  | TResume :: rest => S (ticks_resumes rest)
  end.

Section Async.

Variable World : Type.
Variable invoke : World -> string -> Cmd -> World * Outcome.
Variable dateNow : World -> Z.
Variable localeTimeString : World -> string.

(** The component, the world, and the handlers in flight, oldest first. *)
Record Sys : Type := mkSys {
  sys_app : AppState;
  sys_env : World;
  sys_pending : list Suspended
}.

Inductive AsyncEvent : Type :=
| AUi (e : UiEvent)
| ADragDrop (payload : DragDropPayload)
| AElapse (w' : World)
| AResume (k : nat).

(** The handler up to its first [await]: lines 117-138. *)
Definition begin_event (payload : DragDropPayload) (y : Sys) : Sys :=
  match payload with
  | enter _ => mkSys (setIsDragOver true (sys_app y)) (sys_env y) (sys_pending y)
  | drop paths =>
      let a := setIsDragOver false (sys_app y) in
      match paths with
      | [] => mkSys a (sys_env y) (sys_pending y)
      | _ :: _ =>
          let cfg := configRef a in
          mkSys a (sys_env y)
                (sys_pending y ++ [mkSuspended cfg paths 0 [] (seq_init cfg)])%list
      end
  | over | leave => mkSys (setIsDragOver false (sys_app y)) (sys_env y) (sys_pending y)
  end.

(** The promise awaited by the [k]-th handler in flight resolves: the
    handler finishes the iteration of [paths[i]], and either suspends at
    the next [await] or, after the last path, runs lines 221-225.

    The code hands the call to the back end before it awaits (lines
    193-196); here the back end acts on the world when the promise
    resolves.  With one handler in flight the two cannot be told apart.
    With several, the world and its journal follow the order in which the
    calls are answered, which for a back end that answers in the order of
    arrival is only the order of arrival on event lists that resume the
    handlers in that order. *)
Definition resume (k : nat) (y : Sys) : Sys :=
  match nth_error (sys_pending y) k with
  | None => y
  | Some sp =>
      match sp_rest sp with
      | [] => y
      | filePath :: rest =>
          let st := loop_body World invoke dateNow localeTimeString
                              (sp_cfg sp) (sp_i sp) filePath
                              (mkLoop (sys_env y) (idCounter (sys_app y))
                                      (sp_newLogs sp) (sp_currentSeq sp)) in
          let a := with_idCounter (logIdCounter st) (sys_app y) in
          match rest with
          | [] =>
              mkSys (commit_drop (sp_cfg sp) st a) (world st)
                    (remove_nth k (sys_pending y))
          | _ :: _ =>
              mkSys a (world st)
                    (replace_nth k
                       (mkSuspended (sp_cfg sp) rest (sp_i sp + 1)
                                    (newLogs st) (currentSeq st))
                       (sys_pending y))
          end
      end
  end.

Definition async_step (ev : AsyncEvent) (y : Sys) : Sys :=
  match ev with
  | AUi e => mkSys (on_ui e (sys_app y)) (sys_env y) (sys_pending y)
  | ADragDrop payload => begin_event payload y
  | AElapse w' => mkSys (sys_app y) w' (sys_pending y)
  | AResume k => resume k y
  end.

Definition async_run (evs : list AsyncEvent) (y : Sys) : Sys :=
  fold_left (fun acc ev => async_step ev acc) evs y.

Definition tick_event (t : Tick) : AsyncEvent :=
  match t with
  | TUi e => AUi e
  | TResume => AResume 0
  end.

End Async.

Arguments mkSys {World}.
Arguments sys_app {World}.
Arguments sys_env {World}.
Arguments sys_pending {World}.
Arguments AUi {World}.
Arguments ADragDrop {World}.
Arguments AElapse {World}.
Arguments AResume {World}.
Arguments tick_event {World}.

(** The calls the back end answers while the asynchronous machine handles
    [evs] from state [s], in the order of the answers. *)
Definition async_calls {World : Type}
           (invoke : World -> string -> Cmd -> World * Outcome)
           (dateNow : World -> Z) (localeTimeString : World -> string)
           (evs : list (AsyncEvent (World * list Call)))
           (s : AppState) (w : World) : list Call :=
  snd (sys_env (async_run (World * list Call) (recording invoke)
                          (on_world dateNow) (on_world localeTimeString)
                          evs (mkSys s (w, []) []))).

(** ** Notions used to state invariants of the asynchronous machine *)

(** A handler in flight whose snapshot is within the stepper ranges and
    whose local counter and index are not negative. *)
Definition suspended_ok (sp : Suspended) : Prop :=
  bounded (sp_cfg sp) /\ 0 <= sp_currentSeq sp /\ 0 <= sp_i sp.

(** An id built by [nextLogId] from a counter value below [k]. *)
Definition id_below (k : Z) (e : LogEntry) : Prop :=
  exists now c, le_id e = log_id now c /\ 0 <= c < k.

(** Every entry that exists: those in the log and those still held by the
    handlers in flight. *)
Definition entry_pool {World : Type} (y : Sys World) : list LogEntry :=
  (logs (sys_app y) ++ List.concat (map sp_newLogs (sys_pending y)))%list.

(** The state of the component is settled and in range, the log is
    capped, and every handler in flight is well formed. *)
Definition async_ok {World : Type} (y : Sys World) : Prop :=
  configRef (sys_app y) = state (sys_app y)
  /\ bounded (state (sys_app y))
  /\ (List.length (logs (sys_app y)) <= 50)%nat
  /\ Forall suspended_ok (sys_pending y).

(** Every entry that exists has an id of its own, built from a counter
    value that [logIdCounter] has passed. *)
Definition ids_ok {World : Type} (y : Sys World) : Prop :=
  0 <= idCounter (sys_app y)
  /\ Forall (id_below (idCounter (sys_app y))) (entry_pool y)
  /\ NoDup (map le_id (entry_pool y)).

(** ** Facts about the loop *)

Section LoopFacts.

Variable World : Type.
Variable invoke : World -> string -> Cmd -> World * Outcome.
Variable dateNow : World -> Z.
Variable localeTimeString : World -> string.

Local Abbreviation loop' := (loop World invoke dateNow localeTimeString).
Local Abbreviation loop_body' := (loop_body World invoke dateNow localeTimeString).

Lemma loop_body_currentSeq cfg i p st :
  currentSeq (loop_body' cfg i p st) = seq_next cfg (currentSeq st).
Proof.
  unfold loop_body. destruct (invoke _ _ _) as [w' out]. reflexivity.
Qed.

Lemma loop_body_newLogs cfg i p st :
  exists e, newLogs (loop_body' cfg i p st) = e :: newLogs st.
Proof.
  unfold loop_body. destruct (invoke _ _ _) as [w' out].
  simpl. eexists. reflexivity.
Qed.

Lemma loop_body_world cfg i p st :
  world (loop_body' cfg i p st)
  = fst (invoke (world st) p (build_cmd cfg (seq_num cfg i (currentSeq st)))).
Proof.
  unfold loop_body. destruct (invoke _ _ _) as [w' out]. reflexivity.
Qed.

Lemma loop_body_logIdCounter cfg i p st :
  logIdCounter (loop_body' cfg i p st) = logIdCounter st + 1.
Proof.
  unfold loop_body. destruct (invoke _ _ _) as [w' out]. reflexivity.
Qed.

Lemma loop_app cfg l1 l2 : forall i st,
  loop' cfg (l1 ++ l2)%list i st
  = loop' cfg l2 (i + Z.of_nat (List.length l1)) (loop' cfg l1 i st).
Proof.
  induction l1 as [|p l1 IH]; intros i st.
  - simpl. f_equal. lia.
  - cbn [app loop List.length]. rewrite IH. f_equal. lia.
Qed.

Lemma loop_snoc cfg l p i st :
  loop' cfg (l ++ [p])%list i st
  = loop_body' cfg (i + Z.of_nat (List.length l)) p (loop' cfg l i st).
Proof. rewrite loop_app. reflexivity. Qed.

Lemma loop_currentSeq cfg paths : forall i st,
  currentSeq (loop' cfg paths i st)
  = if manualIncrement cfg
    then currentSeq st + Z.of_nat (List.length paths)
    else currentSeq st.
Proof.
  induction paths as [|p paths IH]; intros i st.
  - simpl. destruct (manualIncrement cfg); lia.
  - cbn [loop List.length]. rewrite IH, loop_body_currentSeq.
    unfold seq_next. destruct (manualIncrement cfg); lia.
Qed.

Lemma loop_logIdCounter cfg paths : forall i st,
  logIdCounter (loop' cfg paths i st)
  = logIdCounter st + Z.of_nat (List.length paths).
Proof.
  induction paths as [|p paths IH]; intros i st.
  - simpl. lia.
  - cbn [loop List.length]. rewrite IH, loop_body_logIdCounter. lia.
Qed.

Lemma loop_newLogs_length cfg paths : forall i st,
  List.length (newLogs (loop' cfg paths i st))
  = (List.length paths + List.length (newLogs st))%nat.
Proof.
  induction paths as [|p paths IH]; intros i st.
  - reflexivity.
  - cbn [loop List.length]. rewrite IH.
    destruct (loop_body_newLogs cfg i p st) as [e ->]. simpl. lia.
Qed.

(** Entries already collected stay where they are, below the new ones. *)
Lemma loop_newLogs_suffix cfg paths : forall i st,
  exists es, newLogs (loop' cfg paths i st) = (es ++ newLogs st)%list
             /\ List.length es = List.length paths.
Proof.
  induction paths as [|p paths IH]; intros i st.
  - exists []. split; reflexivity.
  - cbn [loop]. destruct (IH (i + 1) (loop_body' cfg i p st)) as (es & -> & Hlen).
    destruct (loop_body_newLogs cfg i p st) as [e ->].
    exists (es ++ [e])%list. split.
    + rewrite <- app_assoc. reflexivity.
    + rewrite length_app. simpl. lia.
Qed.

End LoopFacts.

(** ** Facts about the journalled back end *)

Section JournalFacts.

Variable World : Type.
Variable invoke : World -> string -> Cmd -> World * Outcome.
Variable dateNow : World -> Z.
Variable localeTimeString : World -> string.

Local Abbreviation loopJ :=
  (loop (World * list Call) (recording invoke)
        (on_world dateNow) (on_world localeTimeString)).
Local Abbreviation bodyJ :=
  (loop_body (World * list Call) (recording invoke)
             (on_world dateNow) (on_world localeTimeString)).

Lemma forget_loop_body cfg i p st :
  forget (bodyJ cfg i p st)
  = loop_body World invoke dateNow localeTimeString cfg i p (forget st).
Proof.
  destruct st as [[w j] c l s].
  unfold loop_body, recording, on_world, forget, nextLogId. simpl.
  destruct (invoke w p _) as [w' out]. reflexivity.
Qed.

Lemma journal_loop_body cfg i p st :
  snd (world (bodyJ cfg i p st))
  = (snd (world st) ++ [(p, build_cmd cfg (seq_num cfg i (currentSeq st)))])%list.
Proof.
  destruct st as [[w j] c l s].
  unfold loop_body, recording. simpl.
  destruct (invoke w p _) as [w' out]. reflexivity.
Qed.

(** Journalling does not change what the loop computes. *)
Lemma forget_loop cfg paths : forall i st,
  forget (loopJ cfg paths i st)
  = loop World invoke dateNow localeTimeString cfg paths i (forget st).
Proof.
  induction paths as [|p paths IH]; intros i st.
  - reflexivity.
  - cbn [loop]. rewrite IH, forget_loop_body. reflexivity.
Qed.

Lemma journal_loop cfg paths : forall i st,
  snd (world (loopJ cfg paths i st))
  = (snd (world st) ++ calls_from cfg paths i (currentSeq st))%list.
Proof.
  induction paths as [|p paths IH]; intros i st.
  - simpl. rewrite app_nil_r. reflexivity.
  - cbn [loop calls_from]. rewrite IH, journal_loop_body.
    rewrite loop_body_currentSeq, <- app_assoc. reflexivity.
Qed.

End JournalFacts.

Lemma calls_from_paths cfg paths : forall i cs,
  map fst (calls_from cfg paths i cs) = paths.
Proof.
  induction paths as [|p paths IH]; intros i cs; simpl.
  - reflexivity.
  - rewrite IH. reflexivity.
Qed.

Lemma calls_from_length cfg paths i cs :
  List.length (calls_from cfg paths i cs) = List.length paths.
Proof.
  rewrite <- (calls_from_paths cfg paths i cs) at 2.
  rewrite length_map. reflexivity.
Qed.

(** The command of the [k]-th call: the counter has been advanced [k]
    times when manual mode is on, and the index is [i + k]. *)
Lemma calls_from_nth cfg paths : forall i cs k p,
  nth_error paths k = Some p ->
  nth_error (calls_from cfg paths i cs) k
  = Some (p, build_cmd cfg
               (if manualIncrement cfg
                then cs + Z.of_nat k
                else serialStart cfg + (i + Z.of_nat k))).
Proof.
  induction paths as [|q paths IH]; intros i cs k p Hk.
  - destruct k; discriminate.
  - destruct k as [|k]; simpl in Hk |- *.
    + injection Hk as ->. unfold seq_num.
      destruct (manualIncrement cfg); do 3 f_equal; lia.
    + rewrite (IH _ _ _ _ Hk). unfold seq_next.
      destruct (manualIncrement cfg); do 3 f_equal; lia.
Qed.

(** ** Facts about single iterations *)

Section IterationFacts.

Variable World : Type.
Variable invoke : World -> string -> Cmd -> World * Outcome.
Variable dateNow : World -> Z.
Variable localeTimeString : World -> string.

Local Abbreviation loop' := (loop World invoke dateNow localeTimeString).
Local Abbreviation loop_body' := (loop_body World invoke dateNow localeTimeString).
Local Abbreviation before := (state_before invoke dateNow localeTimeString).

Lemma loop_body_entry cfg i p st :
  newLogs (loop_body' cfg i p st)
  = iteration_entry invoke dateNow localeTimeString cfg i p st :: newLogs st.
Proof.
  unfold loop_body, iteration_entry.
  destruct (invoke _ _ _) as [w' out]. reflexivity.
Qed.

Lemma firstn_prefix (A : Type) (l1 l2 : list A) :
  firstn (List.length l1) (l1 ++ l2) = l1.
Proof.
  induction l1 as [|a l1 IH]; simpl.
  - reflexivity.
  - rewrite IH. reflexivity.
Qed.

Lemma firstn_prefix_S (A : Type) (l1 l2 : list A) (a : A) :
  firstn (S (List.length l1)) (l1 ++ a :: l2) = (l1 ++ [a])%list.
Proof.
  induction l1 as [|b l1 IH]; simpl.
  - reflexivity.
  - simpl in IH. rewrite IH. reflexivity.
Qed.

(** Iteration [i] takes the loop from its state before [i] to its state
    before [i + 1]. *)
Lemma state_before_S cfg paths st0 i p :
  nth_error paths i = Some p ->
  before cfg paths st0 (S i)
  = loop_body' cfg (Z.of_nat i) p (before cfg paths st0 i).
Proof.
  intros Hi. apply nth_error_split in Hi as (l1 & l2 & -> & <-).
  unfold state_before.
  rewrite firstn_prefix_S, firstn_prefix, loop_snoc. reflexivity.
Qed.

Lemma state_before_all cfg paths st0 :
  before cfg paths st0 (List.length paths) = loop' cfg paths 0 st0.
Proof. unfold state_before. rewrite firstn_all. reflexivity. Qed.

Lemma state_before_currentSeq cfg paths st0 i :
  (i <= List.length paths)%nat ->
  currentSeq (before cfg paths st0 i)
  = if manualIncrement cfg then currentSeq st0 + Z.of_nat i else currentSeq st0.
Proof.
  intros Hi. unfold state_before.
  rewrite loop_currentSeq, length_firstn, Nat.min_l by lia. reflexivity.
Qed.

Lemma num_at_value cfg paths st0 i :
  (i <= List.length paths)%nat ->
  num_at invoke dateNow localeTimeString cfg paths st0 i
  = if manualIncrement cfg
    then currentSeq st0 + Z.of_nat i
    else serialStart cfg + Z.of_nat i.
Proof.
  intros Hi. unfold num_at, seq_num.
  rewrite state_before_currentSeq by assumption.
  destruct (manualIncrement cfg); reflexivity.
Qed.

(** The entry of [paths[i]] sits [i] places from the bottom of the
    entries the loop adds. *)
Lemma newLogs_nth cfg paths st0 i p :
  nth_error paths i = Some p ->
  nth_error (newLogs (loop' cfg paths 0 st0))
            (List.length paths - 1 - i)
  = Some (iteration_entry invoke dateNow localeTimeString cfg (Z.of_nat i) p
                          (before cfg paths st0 i)).
Proof.
  intros Hi. pose proof Hi as Hsplit.
  apply nth_error_split in Hsplit as (l1 & l2 & Hp & Hlen).
  unfold state_before. subst paths i.
  rewrite firstn_prefix, loop_app. cbn [loop].
  destruct (loop_newLogs_suffix World invoke dateNow localeTimeString cfg l2
              (0 + Z.of_nat (List.length l1) + 1)
              (loop_body' cfg (0 + Z.of_nat (List.length l1)) p
                          (loop' cfg l1 0 st0)))
    as (es & -> & Hes).
  rewrite loop_body_entry, length_app. simpl List.length.
  replace (List.length l1 + S (List.length l2) - 1 - List.length l1)%nat
    with (List.length es + 0)%nat by lia.
  rewrite nth_error_app2 by lia.
  replace (List.length es + 0 - List.length es)%nat with 0%nat by lia.
  reflexivity.
Qed.

End IterationFacts.

(** ** Facts about setters and effects *)

Lemma sync_effect_idle prev cur :
  serialStart prev = serialStart cur ->
  manualIncrement prev = manualIncrement cur ->
  sync_effect prev cur = cur.
Proof.
  intros Hs Hm. unfold sync_effect.
  rewrite Hs, Hm, Z.eqb_refl, Bool.eqb_reflx. reflexivity.
Qed.

Lemma count_update_serialStart v c :
  serialStart (apply_update (setCurrentManualCount v) c) = serialStart c.
Proof. destruct c; reflexivity. Qed.

Lemma count_update_manualIncrement v c :
  manualIncrement (apply_update (setCurrentManualCount v) c) = manualIncrement c.
Proof. destruct c; reflexivity. Qed.

Lemma count_update_currentManualCount v c :
  currentManualCount (apply_update (setCurrentManualCount v) c) = v.
Proof. destruct c; reflexivity. Qed.

Lemma set_count_settles v s :
  set_config (setCurrentManualCount v) s
  = mkApp (apply_update (setCurrentManualCount v) (state s)) (logs s)
          (showLogs s) (isDragOver s)
          (apply_update (setCurrentManualCount v) (state s)) (idCounter s).
Proof.
  unfold set_config, render. cbn [state logs showLogs isDragOver idCounter].
  rewrite sync_effect_idle; [reflexivity | |].
  - symmetry. apply count_update_serialStart.
  - symmetry. apply count_update_manualIncrement.
Qed.

(** ** Facts about the drop handler *)

Section HandlerFacts.

Variable World : Type.
Variable invoke : World -> string -> Cmd -> World * Outcome.
Variable dateNow : World -> Z.
Variable localeTimeString : World -> string.

Local Abbreviation loop' := (loop World invoke dateNow localeTimeString).
Local Abbreviation handler := (onDragDropEvent World invoke dateNow localeTimeString).

(** The state and world a non-empty drop leaves, in closed form. *)
Lemma process_drop_eq paths s w :
  process_drop World invoke dateNow localeTimeString paths s w
  = let cfg := configRef s in
    let st := loop' cfg paths 0 (loop_entry World cfg s w) in
    (mkApp (if manualIncrement cfg
            then apply_update (setCurrentManualCount (currentSeq st)) (state s)
            else state s)
           (firstn 50 (newLogs st ++ logs s)%list)
           (showLogs s) (isDragOver s)
           (if manualIncrement cfg
            then apply_update (setCurrentManualCount (currentSeq st)) (state s)
            else configRef s)
           (logIdCounter st),
     world st).
Proof.
  unfold process_drop. cbn zeta.
  destruct (manualIncrement (configRef s)).
  - rewrite set_count_settles. reflexivity.
  - reflexivity.
Qed.

Lemma loop_entry_setIsDragOver cfg b s w :
  loop_entry World cfg (setIsDragOver b s) w = loop_entry World cfg s w.
Proof. reflexivity. Qed.

(** The state and world any drop leaves, in closed form; the empty drop
    is the early return of line 132. *)
Lemma handler_drop_eq paths s w :
  handler (drop paths) s w
  = match paths with
    | [] => (setIsDragOver false s, w)
    | _ :: _ =>
        let cfg := configRef s in
        let st := loop' cfg paths 0 (loop_entry World cfg s w) in
        (mkApp (if manualIncrement cfg
                then apply_update (setCurrentManualCount (currentSeq st)) (state s)
                else state s)
               (firstn 50 (newLogs st ++ logs s)%list)
               (showLogs s) false
               (if manualIncrement cfg
                then apply_update (setCurrentManualCount (currentSeq st)) (state s)
                else configRef s)
               (logIdCounter st),
         world st)
    end.
Proof.
  destruct paths as [|p paths].
  - reflexivity.
  - cbn [onDragDropEvent]. rewrite process_drop_eq. reflexivity.
Qed.

End HandlerFacts.

(** The journal of a drop lists exactly the calls of its loop. *)
Lemma calls_of_drop_eq (World : Type)
      (invoke : World -> string -> Cmd -> World * Outcome)
      (dateNow : World -> Z) (localeTimeString : World -> string)
      (paths : list string) (s : AppState) (w : World) :
  calls_of_drop invoke dateNow localeTimeString paths s w
  = calls_from (configRef s) paths 0 (seq_init (configRef s)).
Proof.
  unfold calls_of_drop. rewrite handler_drop_eq.
  destruct paths as [|p paths].
  - reflexivity.
  - cbn zeta. cbn [snd]. rewrite journal_loop. reflexivity.
Qed.

(** Journalling changes neither the state nor the world a drop leaves. *)
Lemma recording_is_transparent (World : Type)
      (invoke : World -> string -> Cmd -> World * Outcome)
      (dateNow : World -> Z) (localeTimeString : World -> string)
      (payload : DragDropPayload) (s : AppState) (w : World) (j : list Call) :
  let r := onDragDropEvent (World * list Call) (recording invoke)
                           (on_world dateNow) (on_world localeTimeString)
                           payload s (w, j) in
  (fst r, fst (snd r))
  = onDragDropEvent World invoke dateNow localeTimeString payload s w.
Proof.
  destruct payload as [ps| |ps|]; try reflexivity.
  cbn zeta. rewrite !handler_drop_eq.
  destruct ps as [|p ps]; [reflexivity|].
  cbn zeta. cbn [fst snd].
  pose proof (forget_loop World invoke dateNow localeTimeString (configRef s)
                (p :: ps) 0 (loop_entry (World * list Call) (configRef s) s (w, j)))
    as Hf.
  change (forget (loop_entry (World * list Call) (configRef s) s (w, j)))
    with (loop_entry World (configRef s) s w) in Hf.
  rewrite <- Hf. reflexivity.
Qed.

(** ** The sequence counter across a drop *)

Section CounterFacts.

Variable World : Type.
Variable invoke : World -> string -> Cmd -> World * Outcome.
Variable dateNow : World -> Z.
Variable localeTimeString : World -> string.

Local Abbreviation handler := (onDragDropEvent World invoke dateNow localeTimeString).

(** A drop in manual mode leaves a settled state, still in manual mode,
    whose counter has moved by the number of paths. *)
Lemma manual_drop_step paths s w :
  configRef s = state s ->
  manualIncrement (state s) = true ->
  let s1 := fst (handler (drop paths) s w) in
  configRef s1 = state s1
  /\ manualIncrement (state s1) = true
  /\ currentManualCount (state s1)
     = currentManualCount (state s) + Z.of_nat (List.length paths).
Proof.
  intros Href Hm. cbn zeta. rewrite handler_drop_eq.
  destruct paths as [|p paths].
  - cbn [fst setIsDragOver configRef state List.length]. repeat split; try assumption. lia.
  - cbn zeta. cbn [fst configRef state]. rewrite Href, Hm.
    rewrite count_update_manualIncrement, count_update_currentManualCount.
    rewrite loop_currentSeq, Hm. unfold loop_entry, seq_init.
    cbn [currentSeq]. rewrite Hm. repeat split; try assumption.
Qed.

(** A drop outside manual mode changes no configuration value. *)
Lemma batch_drop_step paths s w :
  manualIncrement (configRef s) = false ->
  let s1 := fst (handler (drop paths) s w) in
  state s1 = state s /\ configRef s1 = configRef s.
Proof.
  intros Hm. cbn zeta. rewrite handler_drop_eq.
  destruct paths as [|p paths].
  - split; reflexivity.
  - cbn zeta. cbn [fst configRef state]. rewrite Hm. split; reflexivity.
Qed.

Lemma num_of_drop_manual paths s w i p :
  manualIncrement (configRef s) = true ->
  nth_error paths i = Some p ->
  num_of_drop invoke dateNow localeTimeString paths s w i
  = currentManualCount (configRef s) + Z.of_nat i.
Proof.
  intros Hm Hi. unfold num_of_drop.
  rewrite num_at_value.
  - rewrite Hm. unfold loop_entry, seq_init. cbn [currentSeq]. rewrite Hm. reflexivity.
  - apply Nat.lt_le_incl, nth_error_Some. rewrite Hi. discriminate.
Qed.

Lemma call_of_drop_nth paths s w i p :
  nth_error paths i = Some p ->
  nth_error (calls_of_drop invoke dateNow localeTimeString paths s w) i
  = Some (p, build_cmd (configRef s) (seq_init (configRef s) + Z.of_nat i)).
Proof.
  intros Hi. rewrite calls_of_drop_eq, (calls_from_nth _ _ _ _ _ _ Hi).
  unfold seq_init. destruct (manualIncrement (configRef s)); do 3 f_equal; lia.
Qed.

End CounterFacts.

(** ** The claims about the dispatcher *)

(** C1. In manual-increment mode a drop of N paths, taken when the stored
    counter is [v], gives its paths the numbers v, v+1, ..., v+N-1 in drop
    order (as the loop variable [num], and in the command sent for each
    path) and leaves the stored counter at v+N; the next drop, of M paths,
    then uses v+N, ..., v+N+M-1 and leaves the counter at v+N+M. *)
Theorem manual_counter_runs_across_drops
        (World : Type)
        (invoke : World -> string -> Cmd -> World * Outcome)
        (dateNow : World -> Z) (localeTimeString : World -> string)
        (s : AppState) (w w2 : World) (paths paths2 : list string) (v : Z) :
  configRef s = state s ->
  manualIncrement (state s) = true ->
  currentManualCount (state s) = v ->
  let N := Z.of_nat (List.length paths) in
  let M := Z.of_nat (List.length paths2) in
  let s1 := fst (onDragDropEvent World invoke dateNow localeTimeString
                                 (drop paths) s w) in
  let s2 := fst (onDragDropEvent World invoke dateNow localeTimeString
                                 (drop paths2) s1 w2) in
  (forall i p, nth_error paths i = Some p ->
     num_of_drop invoke dateNow localeTimeString paths s w i = v + Z.of_nat i
     /\ nth_error (calls_of_drop invoke dateNow localeTimeString paths s w) i
        = Some (p, build_cmd (configRef s) (v + Z.of_nat i)))
  /\ currentManualCount (state s1) = v + N
  /\ (forall j q, nth_error paths2 j = Some q ->
        num_of_drop invoke dateNow localeTimeString paths2 s1 w2 j
        = v + N + Z.of_nat j
        /\ nth_error (calls_of_drop invoke dateNow localeTimeString paths2 s1 w2) j
           = Some (q, build_cmd (configRef s1) (v + N + Z.of_nat j)))
  /\ currentManualCount (state s2) = v + N + M.
Proof.
  intros Href Hm Hv N M s1 s2.
  destruct (manual_drop_step World invoke dateNow localeTimeString paths s w Href Hm)
    as (Href1 & Hm1 & Hc1).
  fold s1 in Href1, Hm1, Hc1.
  destruct (manual_drop_step World invoke dateNow localeTimeString paths2 s1 w2 Href1 Hm1)
    as (_ & _ & Hc2).
  fold s2 in Hc2.
  assert (Hnums : forall (t : AppState) (x : World) (l : list string) (c : Z),
             configRef t = state t -> manualIncrement (state t) = true ->
             currentManualCount (state t) = c ->
             forall i p, nth_error l i = Some p ->
               num_of_drop invoke dateNow localeTimeString l t x i = c + Z.of_nat i
               /\ nth_error (calls_of_drop invoke dateNow localeTimeString l t x) i
                  = Some (p, build_cmd (configRef t) (c + Z.of_nat i))).
  { intros t x l c Ht Hmt Hct i p Hi. split.
    - rewrite (num_of_drop_manual _ _ _ _ _ _ _ _ p); rewrite ?Ht; auto.
      rewrite Hct. reflexivity.
    - rewrite (call_of_drop_nth _ _ _ _ _ _ _ _ p Hi).
      unfold seq_init. rewrite Ht, Hmt, Hct. reflexivity. }
  assert (Hc1' : currentManualCount (state s1) = v + N).
  { rewrite Hc1, Hv. reflexivity. }
  split; [intros i p Hi; exact (Hnums s w paths v Href Hm Hv i p Hi)|].
  split; [exact Hc1'|].
  split; [intros j q Hj; exact (Hnums s1 w2 paths2 (v + N) Href1 Hm1 Hc1' j q Hj)|].
  rewrite Hc2, Hc1'. reflexivity.
Qed.

Lemma manual_counter_runs_across_drops_witness :
  (configRef sample_manual_app = state sample_manual_app
   /\ manualIncrement (state sample_manual_app) = true
   /\ currentManualCount (state sample_manual_app) = 1)
  /\ let s1 := fst (onDragDropEvent nat sample_invoke sample_dateNow
                                    sample_localeTimeString
                                    (drop ["a.png"; "b.png"; "c.png"])
                                    sample_manual_app 0%nat) in
     let s2 := fst (onDragDropEvent nat sample_invoke sample_dateNow
                                    sample_localeTimeString
                                    (drop ["d.png"; "e.png"]) s1 7%nat) in
     currentManualCount (state s1) = 4 /\ currentManualCount (state s2) = 6.
Proof.
  split; [repeat split|].
  pose proof (manual_counter_runs_across_drops
                nat sample_invoke sample_dateNow sample_localeTimeString
                sample_manual_app 0%nat 7%nat
                ["a.png"; "b.png"; "c.png"] ["d.png"; "e.png"] 1
                eq_refl eq_refl eq_refl) as H.
  cbn zeta in H. destruct H as (_ & H1 & _ & H2).
  split; [exact H1 | exact H2].
Defined.

(** C2. In Serial mode under the batch (non-manual) policy, the command
    sent for the path at 0-based index [i] is a Serial command whose
    [number] is [serialStart + i]; the drop changes no configuration value,
    so the first path of the next drop is again given [serialStart + 0]. *)
Theorem batch_policy_numbers_by_index
        (World : Type)
        (invoke : World -> string -> Cmd -> World * Outcome)
        (dateNow : World -> Z) (localeTimeString : World -> string)
        (s : AppState) (w : World) (paths : list string) :
  activeTab (configRef s) = serial ->
  manualIncrement (configRef s) = false ->
  let s1 := fst (onDragDropEvent World invoke dateNow localeTimeString
                                 (drop paths) s w) in
  (forall i p, nth_error paths i = Some p ->
     exists c,
       nth_error (calls_of_drop invoke dateNow localeTimeString paths s w) i
       = Some (p, Serial c)
       /\ SerialConfig.number c = serialStart (configRef s) + Z.of_nat i)
  /\ state s1 = state s
  /\ configRef s1 = configRef s
  /\ (forall (w2 : World) (q : string) (rest : list string),
        exists c,
          nth_error (calls_of_drop invoke dateNow localeTimeString
                                   (q :: rest) s1 w2) 0
          = Some (q, Serial c)
          /\ SerialConfig.number c = serialStart (configRef s) + 0).
Proof.
  intros Htab Hm s1.
  assert (Hcall : forall (t : AppState) (x : World) (l : list string),
             configRef t = configRef s ->
             forall i p, nth_error l i = Some p ->
               exists c,
                 nth_error (calls_of_drop invoke dateNow localeTimeString l t x) i
                 = Some (p, Serial c)
                 /\ SerialConfig.number c = serialStart (configRef s) + Z.of_nat i).
  { intros t x l Ht i p Hi.
    rewrite (call_of_drop_nth _ _ _ _ _ _ _ _ p Hi), Ht.
    unfold build_cmd, seq_init. rewrite Htab, Hm.
    eexists. split; reflexivity. }
  destruct (batch_drop_step World invoke dateNow localeTimeString paths s w Hm)
    as (Hst & Href).
  fold s1 in Hst, Href.
  split; [intros i p Hi; exact (Hcall s w paths eq_refl i p Hi)|].
  split; [exact Hst|].
  split; [exact Href|].
  intros w2 q rest. exact (Hcall s1 w2 (q :: rest) Href 0%nat q eq_refl).
Qed.

Lemma batch_policy_numbers_by_index_witness :
  (activeTab (configRef sample_serial_app) = serial
   /\ manualIncrement (configRef sample_serial_app) = false)
  /\ exists c,
       nth_error (calls_of_drop sample_invoke sample_dateNow
                                sample_localeTimeString
                                ["IMG1.png"; "IMG2.png"]
                                sample_serial_app 0%nat) 1
       = Some ("IMG2.png", Serial c)
       /\ SerialConfig.number c = serialStart (configRef sample_serial_app) + 1.
Proof.
  split; [split; reflexivity|].
  exact (proj1 (batch_policy_numbers_by_index
                  nat sample_invoke sample_dateNow sample_localeTimeString
                  sample_serial_app 0%nat ["IMG1.png"; "IMG2.png"]
                  eq_refl eq_refl)
               1%nat "IMG2.png" eq_refl).
Defined.

(** C7. In manual-increment mode every iteration of the dispatch loop
    advances [currentSeq] by exactly 1, whatever [invoke] does for that
    path (a result of any status, or a rejection): one iteration moves the
    counter from [c] to [c + 1], the state before path [i + 1] holds the
    counter of the state before path [i] plus 1, and the loop ends with the
    entry value plus the number of paths. *)
Theorem manual_counter_advances_once_per_path
        (World : Type)
        (invoke : World -> string -> Cmd -> World * Outcome)
        (dateNow : World -> Z) (localeTimeString : World -> string)
        (cfg : Config) (paths : list string) (st0 : LoopState World) :
  manualIncrement cfg = true ->
  (forall i p st,
     currentSeq (loop_body World invoke dateNow localeTimeString cfg i p st)
     = currentSeq st + 1)
  /\ (forall i p, nth_error paths i = Some p ->
        num_at invoke dateNow localeTimeString cfg paths st0 i
        = currentSeq (state_before invoke dateNow localeTimeString cfg paths st0 i)
        /\ currentSeq (state_before invoke dateNow localeTimeString
                                    cfg paths st0 (S i))
           = currentSeq (state_before invoke dateNow localeTimeString
                                      cfg paths st0 i) + 1)
  /\ currentSeq (loop World invoke dateNow localeTimeString cfg paths 0 st0)
     = currentSeq st0 + Z.of_nat (List.length paths).
Proof.
  intros Hm.
  assert (Hbody : forall i p st,
             currentSeq (loop_body World invoke dateNow localeTimeString cfg i p st)
             = currentSeq st + 1).
  { intros i p st. rewrite loop_body_currentSeq. unfold seq_next.
    rewrite Hm. reflexivity. }
  split; [exact Hbody|]. split.
  - intros i p Hi. split.
    + unfold num_at, seq_num. rewrite Hm. reflexivity.
    + rewrite (state_before_S _ _ _ _ _ _ _ _ p Hi). apply Hbody.
  - rewrite loop_currentSeq, Hm. reflexivity.
Qed.

Lemma manual_counter_advances_once_per_path_witness :
  manualIncrement (configRef sample_manual_app) = true
  /\ currentSeq (loop nat sample_invoke sample_dateNow sample_localeTimeString
                      (configRef sample_manual_app) ["a.png"; ""; "c.png"] 0
                      (mkLoop 0%nat 0 [] 1))
     = 1 + 3.
Proof.
  split; [reflexivity|].
  exact (proj2 (proj2 (manual_counter_advances_once_per_path
                         nat sample_invoke sample_dateNow sample_localeTimeString
                         (configRef sample_manual_app) ["a.png"; ""; "c.png"]
                         (mkLoop 0%nat 0 [] 1) eq_refl))).
Defined.

Lemma build_cmd_serial_sides cfg num c :
  build_cmd cfg num = Serial c ->
  match serialPosition cfg with
  | pos_start =>
      SerialConfig.prefix c = serialText cfg /\ SerialConfig.suffix c = ""
  | pos_end =>
      SerialConfig.prefix c = "" /\ SerialConfig.suffix c = serialText cfg
  end.
Proof.
  unfold build_cmd. destruct (activeTab cfg); try discriminate.
  intros H. injection H as <-.
  destruct (serialPosition cfg); split; reflexivity.
Qed.

Lemma calls_from_In cfg paths : forall i cs p cmd,
  In (p, cmd) (calls_from cfg paths i cs) -> exists num, cmd = build_cmd cfg num.
Proof.
  induction paths as [|q paths IH]; intros i cs p cmd Hin; simpl in Hin.
  - contradiction.
  - destruct Hin as [Heq | Hin].
    + injection Heq as _ <-. eexists. reflexivity.
    + exact (IH _ _ _ _ Hin).
Qed.

(** C8. Every Serial command sent to the back end carries the configured
    text on one side only: when the position is start, [prefix] is the text
    and [suffix] is the empty string; when the position is end, [prefix] is
    the empty string and [suffix] is the text. *)
Theorem serial_text_on_one_side
        (World : Type)
        (invoke : World -> string -> Cmd -> World * Outcome)
        (dateNow : World -> Z) (localeTimeString : World -> string)
        (s : AppState) (w : World) (paths : list string)
        (p : string) (c : SerialConfig.t) :
  In (p, Serial c) (calls_of_drop invoke dateNow localeTimeString paths s w) ->
  match serialPosition (configRef s) with
  | pos_start =>
      SerialConfig.prefix c = serialText (configRef s)
      /\ SerialConfig.suffix c = ""
  | pos_end =>
      SerialConfig.prefix c = ""
      /\ SerialConfig.suffix c = serialText (configRef s)
  end.
Proof.
  rewrite calls_of_drop_eq. intros Hin.
  apply calls_from_In in Hin as [num Hnum].
  symmetry in Hnum. exact (build_cmd_serial_sides _ _ _ Hnum).
Qed.

Lemma serial_text_on_one_side_witness :
  In ("a.png", Serial (SerialConfig.mk "Img_" "" 1 3 true true))
     (calls_of_drop sample_invoke sample_dateNow sample_localeTimeString
                    ["a.png"] sample_serial_app 0%nat)
  /\ SerialConfig.prefix (SerialConfig.mk "Img_" "" 1 3 true true) = "Img_"
  /\ SerialConfig.suffix (SerialConfig.mk "Img_" "" 1 3 true true) = "".
Proof.
  assert (Hin : In ("a.png", Serial (SerialConfig.mk "Img_" "" 1 3 true true))
                   (calls_of_drop sample_invoke sample_dateNow
                                  sample_localeTimeString
                                  ["a.png"] sample_serial_app 0%nat)).
  { left. reflexivity. }
  split; [exact Hin|].
  exact (serial_text_on_one_side nat sample_invoke sample_dateNow
                                 sample_localeTimeString sample_serial_app
                                 0%nat ["a.png"] "a.png" _ Hin).
Defined.

(** C10. A drop event with an empty list of paths only clears the
    drag-over flag: no call is made to the back end, the log is unchanged,
    so are the stored counter and every other configuration value, the
    [configRef] snapshot, the id counter and the world. *)
Theorem empty_drop_changes_nothing
        (World : Type)
        (invoke : World -> string -> Cmd -> World * Outcome)
        (dateNow : World -> Z) (localeTimeString : World -> string)
        (s : AppState) (w : World) :
  let r := onDragDropEvent World invoke dateNow localeTimeString (drop []) s w in
  calls_of_drop invoke dateNow localeTimeString [] s w = []
  /\ snd r = w
  /\ logs (fst r) = logs s
  /\ currentManualCount (state (fst r)) = currentManualCount (state s)
  /\ state (fst r) = state s
  /\ configRef (fst r) = configRef s
  /\ idCounter (fst r) = idCounter s.
Proof. cbn. repeat split; reflexivity. Qed.

(** ** The log *)

Section LogFacts.

Variable World : Type.
Variable invoke : World -> string -> Cmd -> World * Outcome.
Variable dateNow : World -> Z.
Variable localeTimeString : World -> string.

Local Abbreviation handler := (onDragDropEvent World invoke dateNow localeTimeString).
Local Abbreviation entries := (entries_of_drop invoke dateNow localeTimeString).

Lemma entries_length paths s w :
  List.length (entries paths s w) = List.length paths.
Proof.
  unfold entries_of_drop. rewrite loop_newLogs_length.
  unfold loop_entry. cbn [newLogs List.length]. lia.
Qed.

Lemma entries_nth paths s w i p :
  nth_error paths i = Some p ->
  nth_error (entries paths s w) (List.length paths - 1 - i)
  = Some (iteration_entry invoke dateNow localeTimeString (configRef s)
            (Z.of_nat i) p
            (state_before invoke dateNow localeTimeString (configRef s) paths
                          (loop_entry World (configRef s) s w) i)).
Proof. intros Hi. unfold entries_of_drop. apply newLogs_nth. exact Hi. Qed.

(** What [setLogs] leaves after a non-empty drop. *)
Lemma logs_after_drop paths s w :
  paths <> [] ->
  logs (fst (handler (drop paths) s w))
  = firstn 50 (entries paths s w ++ logs s)%list.
Proof.
  intros Hne. rewrite handler_drop_eq.
  destruct paths as [|p paths]; [contradiction|]. reflexivity.
Qed.

Lemma logs_after_ui e s : logs (on_ui e s) = logs s.
Proof.
  unfold on_ui. destruct (ui_update e (state s)); reflexivity.
Qed.

Lemma logs_bounded_step ev sw :
  (List.length (logs (fst sw)) <= 50)%nat ->
  (List.length (logs (fst (step World invoke dateNow localeTimeString ev sw))) <= 50)%nat.
Proof.
  intros Hb. destruct ev as [e|payload|w']; cbn [step fst].
  - rewrite logs_after_ui. exact Hb.
  - destruct payload as [ps| |ps|]; try exact Hb.
    destruct ps as [|p ps]; [exact Hb|].
    rewrite logs_after_drop by discriminate.
    rewrite length_firstn. apply Nat.le_min_l.
  - exact Hb.
Qed.

Lemma logs_bounded_run evs : forall sw,
  (List.length (logs (fst sw)) <= 50)%nat ->
  (List.length (logs (fst (run World invoke dateNow localeTimeString evs sw))) <= 50)%nat.
Proof.
  induction evs as [|ev evs IH]; intros sw Hb.
  - exact Hb.
  - cbn [run fold_left]. apply IH, logs_bounded_step, Hb.
Qed.

End LogFacts.



(** C5. The paths of a drop are sent to the back end in input order, one
    call per path, and the call for the next path starts in the world the
    previous call returned.  The entries are surfaced newest first: the
    entry of the path at index [i] is [i] places from the end of the
    batch's entries, so the entry of the last path heads the log after the
    drop, and the batch's entries come before the entries of earlier
    drops. *)
Theorem dispatch_in_order_log_newest_first
        (World : Type)
        (invoke : World -> string -> Cmd -> World * Outcome)
        (dateNow : World -> Z) (localeTimeString : World -> string)
        (s : AppState) (w : World) (paths : list string) :
  let cfg := configRef s in
  let st0 := loop_entry World cfg s w in
  let before := state_before invoke dateNow localeTimeString cfg paths st0 in
  let entries := entries_of_drop invoke dateNow localeTimeString paths s w in
  let s1 := fst (onDragDropEvent World invoke dateNow localeTimeString
                                 (drop paths) s w) in
  map fst (calls_of_drop invoke dateNow localeTimeString paths s w) = paths
  /\ world (before 0%nat) = w
  /\ (forall i p, nth_error paths i = Some p ->
        world (before (S i))
        = fst (invoke (world (before i)) p
                      (build_cmd cfg (num_at invoke dateNow localeTimeString
                                             cfg paths st0 i))))
  /\ (forall i p, nth_error paths i = Some p ->
        nth_error entries (List.length paths - 1 - i)
        = Some (iteration_entry invoke dateNow localeTimeString cfg
                                (Z.of_nat i) p (before i)))
  /\ (forall l p, paths = (l ++ [p])%list ->
        hd_error (logs s1)
        = Some (iteration_entry invoke dateNow localeTimeString cfg
                                (Z.of_nat (List.length l)) p
                                (before (List.length l))))
  /\ (paths <> [] -> logs s1 = firstn 50 (entries ++ logs s)%list).
Proof.
  intros cfg st0 before entries s1.
  split; [rewrite calls_of_drop_eq; apply calls_from_paths|].
  split; [reflexivity|].
  split; [|split; [|split]].
  - intros i p Hi. unfold before.
    rewrite (state_before_S _ _ _ _ _ _ _ _ p Hi), loop_body_world.
    reflexivity.
  - intros i p Hi. apply entries_nth. exact Hi.
  - intros l p Hp.
    assert (Hi : nth_error paths (List.length l) = Some p).
    { rewrite Hp, nth_error_app2, Nat.sub_diag by lia. reflexivity. }
    pose proof (entries_nth World invoke dateNow localeTimeString
                            paths s w _ p Hi) as Hnth.
    assert (Hne : paths <> []) by (rewrite Hp; destruct l; discriminate).
    unfold s1. rewrite logs_after_drop by exact Hne.
    replace (List.length paths - 1 - List.length l)%nat with 0%nat in Hnth
      by (rewrite Hp, length_app; simpl; lia).
    destruct (entries_of_drop invoke dateNow localeTimeString paths s w)
      as [|e es]; [discriminate|].
    simpl in Hnth. injection Hnth as ->. reflexivity.
  - intros Hne. apply logs_after_drop. exact Hne.
Qed.

Lemma dispatch_in_order_log_newest_first_witness :
  (["a.png"; "b.png"] = (["a.png"] ++ ["b.png"])%list
   /\ ["a.png"; "b.png"] <> [])
  /\ option_map le_path
       (hd_error (logs (fst (onDragDropEvent nat sample_invoke sample_dateNow
                                             sample_localeTimeString
                                             (drop ["a.png"; "b.png"])
                                             sample_serial_app 0%nat))))
     = Some "b.png".
Proof.
  split; [split; [reflexivity | discriminate]|].
  rewrite (proj1 (proj2 (proj2 (proj2 (proj2
            (dispatch_in_order_log_newest_first
               nat sample_invoke sample_dateNow sample_localeTimeString
               sample_serial_app 0%nat ["a.png"; "b.png"])))))
            ["a.png"] "b.png" eq_refl).
  reflexivity.
Defined.

(** C9. The log never holds more than 50 entries.  After a non-empty drop
    it is the first 50 of the batch's entries followed by the earlier log,
    newest first, so the newest 50 entries are kept and older ones are
    discarded; and in every state the application can reach, after any
    sequence of events, the log has at most 50 entries. *)
Theorem log_keeps_newest_fifty
        (World : Type)
        (invoke : World -> string -> Cmd -> World * Outcome)
        (dateNow : World -> Z) (localeTimeString : World -> string) :
  (forall (s : AppState) (w : World) (p : string) (rest : list string),
     let s1 := fst (onDragDropEvent World invoke dateNow localeTimeString
                                    (drop (p :: rest)) s w) in
     logs s1
     = firstn 50 (entries_of_drop invoke dateNow localeTimeString
                                  (p :: rest) s w ++ logs s)%list
     /\ (List.length (logs s1) <= 50)%nat)
  /\ (forall (evs : list (Event World)) (w0 : World),
        (List.length
           (logs (fst (run World invoke dateNow localeTimeString evs
                           (initial_app, w0)))) <= 50)%nat).
Proof.
  split.
  - intros s w p rest s1. unfold s1.
    rewrite logs_after_drop by discriminate.
    split; [reflexivity|]. rewrite length_firstn. apply Nat.le_min_l.
  - intros evs w0. apply logs_bounded_run. cbn. lia.
Qed.

(** ** The stored counter and the configured start *)

Lemma sync_effect_synced prev cur :
  synced prev ->
  currentManualCount cur = currentManualCount prev ->
  synced (sync_effect prev cur).
Proof.
  unfold synced, sync_effect. intros Hprev Hcount.
  destruct (Z.eqb_spec (serialStart prev) (serialStart cur)) as [Hs|Hs];
    destruct (manualIncrement prev) eqn:Hmp;
    destruct (manualIncrement cur) eqn:Hmc; cbn [negb orb Bool.eqb];
    rewrite ?count_update_manualIncrement, ?count_update_currentManualCount,
      ?count_update_serialStart;
    try rewrite Hmc; try discriminate; try reflexivity.
  intros _. rewrite Hcount, <- Hs. apply Hprev. reflexivity.
Qed.

Lemma ui_update_keeps_count e c u :
  ui_update e c = Some u ->
  currentManualCount (apply_update u c) = currentManualCount c.
Proof.
  destruct e; cbn [ui_update]; intros H; try discriminate;
    injection H as <-; destruct c; reflexivity.
Qed.

Lemma on_ui_settled e s :
  configRef s = state s -> synced (state s) ->
  configRef (on_ui e s) = state (on_ui e s) /\ synced (state (on_ui e s)).
Proof.
  intros Href Hsync. unfold on_ui.
  destruct (ui_update e (state s)) as [u|] eqn:Hu.
  - unfold set_config, render. cbn [state configRef]. split; [reflexivity|].
    apply sync_effect_synced; [exact Hsync|].
    exact (ui_update_keeps_count _ _ _ Hu).
  - split; assumption.
Qed.

Section ReachableFacts.

Variable World : Type.
Variable invoke : World -> string -> Cmd -> World * Outcome.
Variable dateNow : World -> Z.
Variable localeTimeString : World -> string.

Local Abbreviation handler := (onDragDropEvent World invoke dateNow localeTimeString).
Local Abbreviation step' := (step World invoke dateNow localeTimeString).
Local Abbreviation run' := (run World invoke dateNow localeTimeString).

Lemma handler_settled payload s w :
  configRef s = state s -> synced (state s) ->
  configRef (fst (handler payload s w)) = state (fst (handler payload s w))
  /\ synced (state (fst (handler payload s w))).
Proof.
  intros Href Hsync.
  destruct payload as [ps| |ps|]; try (split; assumption).
  destruct (manualIncrement (state s)) eqn:Hm.
  - destruct (manual_drop_step World invoke dateNow localeTimeString ps s w Href Hm)
      as (Href1 & Hm1 & _).
    split; [exact Href1|]. unfold synced. rewrite Hm1. discriminate.
  - assert (Hm' : manualIncrement (configRef s) = false) by (rewrite Href; exact Hm).
    destruct (batch_drop_step World invoke dateNow localeTimeString ps s w Hm')
      as (Hst & Hcr).
    rewrite Hst, Hcr. split; assumption.
Qed.

Lemma step_settled ev sw :
  configRef (fst sw) = state (fst sw) -> synced (state (fst sw)) ->
  configRef (fst (step' ev sw)) = state (fst (step' ev sw))
  /\ synced (state (fst (step' ev sw))).
Proof.
  intros Href Hsync. destruct ev as [e|payload|w']; cbn [step fst].
  - apply on_ui_settled; assumption.
  - apply handler_settled; assumption.
  - split; assumption.
Qed.

Lemma run_settled evs : forall sw,
  configRef (fst sw) = state (fst sw) -> synced (state (fst sw)) ->
  configRef (fst (run' evs sw)) = state (fst (run' evs sw))
  /\ synced (state (fst (run' evs sw))).
Proof.
  induction evs as [|ev evs IH]; intros sw Href Hsync.
  - split; assumption.
  - cbn [run fold_left].
    destruct (step_settled ev sw Href Hsync) as (Href1 & Hsync1).
    exact (IH _ Href1 Hsync1).
Qed.

(** Every state the application reaches is settled and synced. *)
Lemma reachable_settled evs w0 :
  configRef (fst (run' evs (initial_app, w0)))
  = state (fst (run' evs (initial_app, w0)))
  /\ synced (state (fst (run' evs (initial_app, w0)))).
Proof.
  apply run_settled; [reflexivity|]. intros _. reflexivity.
Qed.

End ReachableFacts.

Lemma set_serialStart_in_manual n s :
  manualIncrement (state s) = true ->
  state (set_config (setSerialStart n) s)
  = apply_update (setSerialStart n) (state s).
Proof.
  intros Hm. unfold set_config, render, sync_effect. cbn [state].
  destruct (state s); cbn in Hm |- *. subst.
  rewrite Bool.orb_false_r. destruct (negb _); reflexivity.
Qed.

(** The sync effect when no control is used while a drop is in flight.  In
    every state the first machine reaches: while manual-increment mode is
    off the stored counter equals [serialStart], so ticking the manual box
    starts the counter from the configured start; while manual mode is on,
    setting [serialStart] to any value leaves the counter as it is, also
    after a drop has advanced it.  The asynchronous machine does not keep
    this: see [untick_mid_drop_leaves_counter_unsynced]. *)
Theorem manual_counter_synced_until_enabled
        (World : Type)
        (invoke : World -> string -> Cmd -> World * Outcome)
        (dateNow : World -> Z) (localeTimeString : World -> string)
        (evs : list (Event World)) (w0 : World) :
  let s := fst (run World invoke dateNow localeTimeString evs (initial_app, w0)) in
  (manualIncrement (state s) = false ->
     currentManualCount (state s) = serialStart (state s)
     /\ manualIncrement (state (on_ui (CheckManualIncrement true) s)) = true
     /\ currentManualCount (state (on_ui (CheckManualIncrement true) s))
        = serialStart (state s))
  /\ (manualIncrement (state s) = true ->
      forall n : Z,
        manualIncrement (state (set_config (setSerialStart n) s)) = true
        /\ serialStart (state (set_config (setSerialStart n) s)) = n
        /\ currentManualCount (state (set_config (setSerialStart n) s))
           = currentManualCount (state s))
  /\ (manualIncrement (state s) = true ->
      forall (paths : list string) (w : World) (n : Z),
        currentManualCount
          (state (set_config (setSerialStart n)
                    (fst (onDragDropEvent World invoke dateNow localeTimeString
                                          (drop paths) s w))))
        = currentManualCount (state s) + Z.of_nat (List.length paths)).
Proof.
  intros s.
  destruct (reachable_settled World invoke dateNow localeTimeString evs w0)
    as (Href & Hsync).
  fold s in Href, Hsync.
  split; [|split].
  - intros Hm. split; [exact (Hsync Hm)|].
    pose proof (Hsync Hm) as Hc.
    unfold on_ui, set_config, render, sync_effect. cbn [ui_update state].
    destruct (state s); cbn in Hm, Hc |- *. subst.
    rewrite Z.eqb_refl. split; reflexivity.
  - intros Hm n. rewrite (set_serialStart_in_manual _ _ Hm).
    destruct (state s); cbn in Hm |- *. repeat split. exact Hm.
  - intros Hm paths w n.
    destruct (manual_drop_step World invoke dateNow localeTimeString paths s w Href Hm)
      as (_ & Hm1 & Hc1).
    rewrite (set_serialStart_in_manual _ _ Hm1), <- Hc1.
    destruct (state (fst (onDragDropEvent World invoke dateNow localeTimeString
                                          (drop paths) s w))).
    reflexivity.
Qed.

(** ** The engine model: extensions *)

Lemma split_last_dot_after s : forall b a,
  split_last_dot s = Some (b, a) -> split_last_dot a = None.
Proof.
  induction s as [|c rest IH]; intros b a H; simpl in H.
  - discriminate.
  - destruct (split_last_dot rest) as [[b' a']|] eqn:Hrest.
    + injection H as _ <-. exact (IH _ _ eq_refl).
    + destruct (Ascii.eqb c dot); [|discriminate].
      injection H as _ <-. exact Hrest.
Qed.

Lemma split_last_dot_join b a :
  split_last_dot a = None ->
  split_last_dot (b ++ String dot a) = Some (b, a).
Proof.
  intros Ha. induction b as [|c b IH]; simpl.
  - rewrite Ha. reflexivity.
  - rewrite IH. reflexivity.
Qed.

(** The data-model invariant of section 3: the components give the name
    back. *)
Lemma split_last_dot_name s : forall b a,
  split_last_dot s = Some (b, a) -> s = b ++ String dot a.
Proof.
  induction s as [|c rest IH]; intros b a H; simpl in H.
  - discriminate.
  - destruct (split_last_dot rest) as [[b' a']|] eqn:Hrest.
    + injection H as <- <-. simpl. f_equal. exact (IH _ _ eq_refl).
    + destruct (Ascii.eqb_spec c dot) as [->|]; [|discriminate].
      injection H as <- <-. reflexivity.
Qed.

Lemma split_name_roundtrip name :
  join_name (stem (split_name name)) (extension_of (split_name name)) = name.
Proof.
  unfold split_name.
  destruct (split_last_dot name) as [[b a]|] eqn:H; [|reflexivity].
  destruct b as [|c b]; [reflexivity|].
  symmetry. exact (split_last_dot_name _ _ _ H).
Qed.

Lemma split_name_extension name e :
  extension_of (split_name name) = Some e -> split_last_dot e = None.
Proof.
  unfold split_name.
  destruct (split_last_dot name) as [[b a]|] eqn:H; [|discriminate].
  destruct b as [|c b]; [discriminate|].
  cbn [extension_of]. intros He. injection He as <-.
  exact (split_last_dot_after _ _ _ H).
Qed.

Lemma split_name_join new_stem e :
  new_stem <> "" ->
  split_last_dot e = None ->
  split_name (join_name new_stem (Some e)) = mkComponents new_stem (Some e).
Proof.
  intros Hne He. unfold split_name, join_name.
  rewrite (split_last_dot_join new_stem e He).
  destruct new_stem; [contradiction|reflexivity].
Qed.

(** C4. For every command other than Extension whose semantics say
    preserve (Replace, Add and Trim always; Fixed and Serial when
    [keep_ext] is set): if the original name has an extension and the
    engine produces a new name, the new name has the same extension. *)
Theorem extension_kept_outside_extension_mode
        (regex_replace_all : string -> string -> string -> option string)
        (cmd : Cmd) (name new_name e : string) :
  is_extension_mode cmd = false ->
  preserves_extension cmd = true ->
  extension_of (split_name name) = Some e ->
  compute_name regex_replace_all cmd name = inr new_name ->
  extension_of (split_name new_name) = Some e.
Proof.
  intros Hmode Hkeep Hext Hnew. unfold compute_name in Hnew.
  destruct (transform_stem regex_replace_all cmd (split_name name))
    as [err|new_stem]; [discriminate|].
  destruct (String.eqb_spec new_stem "") as [|Hne]; [discriminate|].
  injection Hnew as <-.
  assert (Hne' : new_extension cmd (split_name name) = Some e).
  { unfold new_extension. rewrite Hkeep.
    destruct cmd; try exact Hext. discriminate. }
  rewrite Hne', split_name_join; [reflexivity | exact Hne |].
  exact (split_name_extension _ _ Hext).
Qed.

Lemma extension_kept_outside_extension_mode_witness :
  (is_extension_mode (Serial (SerialConfig.mk "Vacation_" "" 1 3 true false)) = false
   /\ preserves_extension (Serial (SerialConfig.mk "Vacation_" "" 1 3 true false)) = true
   /\ extension_of (split_name "IMG1.png") = Some "png"
   /\ compute_name no_regex (Serial (SerialConfig.mk "Vacation_" "" 1 3 true false))
                   "IMG1.png"
      = inr "Vacation_001.png")
  /\ extension_of (split_name "Vacation_001.png") = Some "png".
Proof.
  split; [repeat split|].
  exact (extension_kept_outside_extension_mode
           no_regex (Serial (SerialConfig.mk "Vacation_" "" 1 3 true false))
           "IMG1.png" "Vacation_001.png" "png"
           eq_refl eq_refl eq_refl eq_refl).
Defined.

Lemma manual_counter_synced_until_enabled_witness :
  manualIncrement
    (state (fst (run nat sample_invoke sample_dateNow sample_localeTimeString
                     [Ui SerialStartUp; Ui SerialStartUp;
                      DragDrop (drop ["a.png"])]
                     (initial_app, 0%nat)))) = false
  /\ currentManualCount
       (state (on_ui (CheckManualIncrement true)
                 (fst (run nat sample_invoke sample_dateNow
                           sample_localeTimeString
                           [Ui SerialStartUp; Ui SerialStartUp;
                            DragDrop (drop ["a.png"])]
                           (initial_app, 0%nat))))) = 3.
Proof.
  split; [reflexivity|].
  exact (proj2 (proj2 (proj1 (manual_counter_synced_until_enabled
                                nat sample_invoke sample_dateNow
                                sample_localeTimeString
                                [Ui SerialStartUp; Ui SerialStartUp;
                                 DragDrop (drop ["a.png"])] 0%nat)
                             eq_refl))).
Defined.

(** ** The examples of section 8 of the specification, run on the model *)

Example zero_padded_pads : zero_padded 7 3 = "007".
Proof. reflexivity. Qed.

Example zero_padded_never_truncates : zero_padded 1234 3 = "1234".
Proof. reflexivity. Qed.

Example trim_beyond_length_is_empty_name :
  trim_stem 5 pos_end "abc" = ""
  /\ compute_name no_regex (Trim (TrimConfig.mk 5 pos_end)) "abc.txt"
     = inl EmptyName.
Proof. split; reflexivity. Qed.

Example replace_literal_dot :
  compute_name no_regex (Replace (ReplaceConfig.mk "." "_" false)) "a.b.c"
  = inr "a_b.c".
Proof. reflexivity. Qed.

Example fixed_keeps_distinct_extensions :
  compute_name no_regex (Fixed (FixedConfig.mk "x" true)) "photo.jpg" = inr "x.jpg"
  /\ compute_name no_regex (Fixed (FixedConfig.mk "x" true)) "photo.png" = inr "x.png".
Proof. split; reflexivity. Qed.

Example manual_increment_persistence :
  let r1 := onDragDropEvent nat sample_invoke sample_dateNow
                            sample_localeTimeString
                            (drop ["a.png"; "b.png"; "c.png"])
                            sample_manual_app 0%nat in
  let r2 := onDragDropEvent nat sample_invoke sample_dateNow
                            sample_localeTimeString
                            (drop ["d.png"; "e.png"]) (fst r1) (snd r1) in
  currentManualCount (state (fst r1)) = 4
  /\ currentManualCount (state (fst r2)) = 6
  /\ map le_status (logs (fst r2))
     = ["-> Img_e005.png"; "-> Img_d004.png";
        "-> Img_c003.png"; "-> Img_b002.png"; "-> Img_a001.png"].
Proof. repeat split; reflexivity. Qed.

Example vacation_end_to_end :
  let s := on_ui (CheckRemoveOriginal true)
             (on_ui (TypeSerialText "Vacation_") sample_serial_app) in
  map le_status
      (logs (fst (onDragDropEvent nat sample_invoke sample_dateNow
                                  sample_localeTimeString
                                  (drop ["IMG1.png"; "IMG2.png"]) s 0%nat)))
  = ["-> Vacation_002.png"; "-> Vacation_001.png"].
Proof. reflexivity. Qed.

Example rejected_path_does_not_stop_the_batch :
  map (fun e => (le_path e, le_status e, le_success e))
      (logs (fst (onDragDropEvent nat sample_invoke sample_dateNow
                                  sample_localeTimeString
                                  (drop ["a.png"; ""; "c.png"])
                                  sample_serial_app 0%nat)))
  = [("c.png", "-> Img_c003.png", true);
     ("", "Error: no such file", false);
     ("a.png", "-> Img_a001.png", true)].
Proof. reflexivity. Qed.

Example sixty_paths_leave_fifty_entries :
  List.length
    (logs (fst (onDragDropEvent nat sample_invoke sample_dateNow
                                sample_localeTimeString
                                (drop (List.repeat "a.png" 60))
                                sample_serial_app 0%nat)))
  = 50%nat.
Proof. vm_compute. reflexivity. Qed.

(** ** Further properties of the component *)

(** *** Invariants of the event loop *)

Section RunFacts.

Variable World : Type.
Variable invoke : World -> string -> Cmd -> World * Outcome.
Variable dateNow : World -> Z.
Variable localeTimeString : World -> string.

Local Abbreviation handler := (onDragDropEvent World invoke dateNow localeTimeString).
Local Abbreviation step' := (step World invoke dateNow localeTimeString).
Local Abbreviation run' := (run World invoke dateNow localeTimeString).

(** A property of the component kept by every event holds after any
    sequence of events. *)
Lemma run_invariant (P : AppState -> Prop) :
  (forall ev sw, P (fst sw) -> P (fst (step' ev sw))) ->
  forall evs sw, P (fst sw) -> P (fst (run' evs sw)).
Proof.
  intros Hstep evs. induction evs as [|ev evs IH]; intros sw HP.
  - exact HP.
  - cbn [run fold_left]. apply IH, Hstep, HP.
Qed.

(** The configuration a drop leaves, on a settled state: only the stored
    counter can differ, and only in manual mode. *)
Lemma drop_state_settled paths s w :
  configRef s = state s ->
  state (fst (handler (drop paths) s w))
  = if manualIncrement (state s)
    then apply_update
           (setCurrentManualCount
              (currentManualCount (state s) + Z.of_nat (List.length paths)))
           (state s)
    else state s.
Proof.
  intros Href. rewrite handler_drop_eq.
  destruct paths as [|p paths].
  - cbn [fst setIsDragOver state List.length].
    destruct (state s); cbn. destruct manualIncrement0; [|reflexivity].
    f_equal. lia.
  - cbn zeta. cbn [fst state]. rewrite Href.
    destruct (manualIncrement (state s)) eqn:Hm; [|reflexivity].
    rewrite loop_currentSeq, Hm. unfold loop_entry, seq_init.
    cbn [currentSeq]. rewrite Hm. reflexivity.
Qed.

Lemma drop_keeps_settled paths s w :
  configRef s = state s ->
  configRef (fst (handler (drop paths) s w))
  = state (fst (handler (drop paths) s w)).
Proof.
  intros Href. rewrite handler_drop_eq.
  destruct paths as [|p paths].
  - exact Href.
  - cbn zeta. cbn [fst configRef state].
    destruct (manualIncrement (configRef s)); [reflexivity | exact Href].
Qed.

Lemma sync_effect_bounded prev cur :
  bounded cur -> bounded (sync_effect prev cur).
Proof.
  unfold sync_effect, bounded. intros (H1 & H2 & H3 & H4).
  destruct (_ || _); [|repeat split; assumption].
  destruct (negb _); [|repeat split; assumption].
  destruct cur; cbn in *. repeat split; assumption.
Qed.

Lemma ui_update_bounded e c u :
  ui_update e c = Some u -> bounded c -> bounded (apply_update u c).
Proof.
  unfold bounded.
  destruct e; cbn [ui_update]; intros H; try discriminate;
    injection H as <-; destruct c; cbn; intros (H1 & H2 & H3 & H4);
    repeat split; lia.
Qed.

Lemma on_ui_bounded e s :
  bounded (state s) -> bounded (state (on_ui e s)).
Proof.
  intros Hb. unfold on_ui.
  destruct (ui_update e (state s)) as [u|] eqn:Hu; [|exact Hb].
  unfold set_config, render. cbn [state].
  apply sync_effect_bounded. exact (ui_update_bounded _ _ _ Hu Hb).
Qed.

Lemma count_update_bounded v c :
  bounded c -> 0 <= v -> bounded (apply_update (setCurrentManualCount v) c).
Proof.
  unfold bounded. destruct c; cbn. intros (H1 & H2 & H3 & H4) Hv.
  repeat split; assumption.
Qed.

(** Being settled and within the ranges is kept by every event. *)
Lemma step_settled_bounded ev sw :
  configRef (fst sw) = state (fst sw) /\ bounded (state (fst sw)) ->
  configRef (fst (step' ev sw)) = state (fst (step' ev sw))
  /\ bounded (state (fst (step' ev sw))).
Proof.
  intros (Href & Hb). destruct ev as [e|payload|w']; cbn [step fst].
  - split.
    + unfold on_ui. destruct (ui_update e (state (fst sw))); [reflexivity | exact Href].
    + apply on_ui_bounded. exact Hb.
  - destruct payload as [ps| |ps|]; try (split; assumption).
    split; [apply drop_keeps_settled; exact Href|].
    rewrite drop_state_settled by exact Href.
    destruct (manualIncrement (state (fst sw))); [|exact Hb].
    apply count_update_bounded; [exact Hb|].
    destruct Hb as (_ & _ & _ & Hc). lia.
  - split; assumption.
Qed.

Lemma reachable_settled_bounded evs w0 :
  configRef (fst (run' evs (initial_app, w0)))
  = state (fst (run' evs (initial_app, w0)))
  /\ bounded (state (fst (run' evs (initial_app, w0)))).
Proof.
  apply (run_invariant
           (fun s => configRef s = state s /\ bounded (state s))
           step_settled_bounded).
  split; [reflexivity|]. unfold bounded. cbn. lia.
Qed.

(** Each call of a drop is the command built for some index below the
    number of paths. *)
Lemma calls_of_drop_In paths s w p cmd :
  In (p, cmd) (calls_of_drop invoke dateNow localeTimeString paths s w) ->
  exists k, (k < List.length paths)%nat
            /\ cmd = build_cmd (configRef s)
                               (seq_init (configRef s) + Z.of_nat k).
Proof.
  rewrite calls_of_drop_eq. intros Hin.
  apply In_nth_error in Hin as [k Hk].
  assert (Hlt : (k < List.length paths)%nat).
  { rewrite <- (calls_from_length (configRef s) paths 0 (seq_init (configRef s))).
    apply (proj1 (nth_error_Some _ _)). unfold Call in *. rewrite Hk. discriminate. }
  destruct (nth_error paths k) as [q|] eqn:Hq.
  - rewrite (calls_from_nth _ _ _ _ _ _ Hq) in Hk.
    injection Hk as _ <-. exists k. split; [exact Hlt|].
    unfold seq_init. destruct (manualIncrement (configRef s)); f_equal; lia.
  - apply nth_error_None in Hq. lia.
Qed.

Lemma idCounter_after_ui e s : idCounter (on_ui e s) = idCounter s.
Proof.
  unfold on_ui. destruct (ui_update e (state s)); reflexivity.
Qed.

Lemma idCounter_after_drop paths s w :
  idCounter (fst (handler (drop paths) s w))
  = idCounter s + Z.of_nat (List.length paths).
Proof.
  rewrite handler_drop_eq. destruct paths as [|p paths].
  - cbn. lia.
  - cbn zeta. cbn [fst idCounter]. rewrite loop_logIdCounter. reflexivity.
Qed.

End RunFacts.

Lemma build_cmd_serial_number cfg num c :
  build_cmd cfg num = Serial c ->
  activeTab cfg = serial
  /\ SerialConfig.number c = num
  /\ SerialConfig.pad c = serialPad cfg.
Proof.
  unfold build_cmd. destruct (activeTab cfg); try discriminate.
  intros H. injection H as <-. repeat split.
Qed.

Lemma build_cmd_trim_count cfg num c :
  build_cmd cfg num = Trim c -> TrimConfig.count c = trimCount cfg.
Proof.
  unfold build_cmd. destruct (activeTab cfg); try discriminate.
  intros H. injection H as <-. reflexivity.
Qed.

Lemma build_cmd_ignores_number cfg num :
  activeTab cfg <> serial -> build_cmd cfg num = build_cmd cfg 0.
Proof.
  unfold build_cmd. destruct (activeTab cfg); try reflexivity.
  intros H. contradiction H. reflexivity.
Qed.

Lemma calls_from_outside_serial cfg paths : forall i cs,
  activeTab cfg <> serial ->
  calls_from cfg paths i cs = map (fun p => (p, build_cmd cfg 0)) paths.
Proof.
  induction paths as [|p paths IH]; intros i cs Htab; simpl.
  - reflexivity.
  - rewrite (build_cmd_ignores_number _ _ Htab), IH by exact Htab. reflexivity.
Qed.

(** X1. In every state the application reaches, the values moved by the
    stepper buttons and the stored counter stay in range: [serialStart],
    [trimCount] and [currentManualCount] are never negative and [serialPad]
    is at least 1. *)
Theorem stepper_values_stay_in_range
        (World : Type)
        (invoke : World -> string -> Cmd -> World * Outcome)
        (dateNow : World -> Z) (localeTimeString : World -> string)
        (evs : list (Event World)) (w0 : World) :
  let s := fst (run World invoke dateNow localeTimeString evs (initial_app, w0)) in
  0 <= serialStart (state s)
  /\ 1 <= serialPad (state s)
  /\ 0 <= trimCount (state s)
  /\ 0 <= currentManualCount (state s).
Proof.
  exact (proj2 (reachable_settled_bounded World invoke dateNow localeTimeString
                                          evs w0)).
Qed.

(** X2. Whatever the user did before, every command a drop sends is in
    range: a Serial command has a non-negative [number] and a [pad] of at
    least 1, and a Trim command has a non-negative [count]. *)
Theorem commands_sent_are_in_range
        (World : Type)
        (invoke : World -> string -> Cmd -> World * Outcome)
        (dateNow : World -> Z) (localeTimeString : World -> string)
        (evs : list (Event World)) (w0 w : World)
        (paths : list string) (p : string) (cmd : Cmd) :
  let s := fst (run World invoke dateNow localeTimeString evs (initial_app, w0)) in
  In (p, cmd) (calls_of_drop invoke dateNow localeTimeString paths s w) ->
  match cmd with
  | Serial c => 0 <= SerialConfig.number c /\ 1 <= SerialConfig.pad c
  | Trim c => 0 <= TrimConfig.count c
  | _ => True
  end.
Proof.
  intros s Hin.
  destruct (reachable_settled_bounded World invoke dateNow localeTimeString evs w0)
    as (Href & Hs & Hp & Ht & Hc).
  fold s in Href, Hs, Hp, Ht, Hc.
  apply calls_of_drop_In in Hin as (k & _ & Hcmd).
  rewrite Href in Hcmd. symmetry in Hcmd.
  destruct cmd as [c|c|c|c|c|c]; try exact I.
  - apply build_cmd_serial_number in Hcmd as (_ & -> & ->).
    split; [|exact Hp]. unfold seq_init.
    destruct (manualIncrement (state s)); lia.
  - rewrite (build_cmd_trim_count _ _ _ Hcmd). exact Ht.
Qed.

Lemma commands_sent_are_in_range_witness :
  In ("a.png", Trim (TrimConfig.mk 0 pos_end))
     (calls_of_drop sample_invoke sample_dateNow sample_localeTimeString
                    ["a.png"]
                    (fst (run nat sample_invoke sample_dateNow
                              sample_localeTimeString
                              [Ui (SelectTab trim); Ui TrimCountDown;
                               Ui TrimCountDown]
                              (initial_app, 0%nat)))
                    0%nat)
  /\ 0 <= TrimConfig.count (TrimConfig.mk 0 pos_end).
Proof.
  assert (Hin : In ("a.png", Trim (TrimConfig.mk 0 pos_end))
     (calls_of_drop sample_invoke sample_dateNow sample_localeTimeString
                    ["a.png"]
                    (fst (run nat sample_invoke sample_dateNow
                              sample_localeTimeString
                              [Ui (SelectTab trim); Ui TrimCountDown;
                               Ui TrimCountDown]
                              (initial_app, 0%nat)))
                    0%nat)).
  { left. reflexivity. }
  split; [exact Hin|].
  exact (commands_sent_are_in_range
           nat sample_invoke sample_dateNow sample_localeTimeString
           [Ui (SelectTab trim); Ui TrimCountDown; Ui TrimCountDown]
           0%nat 0%nat ["a.png"] "a.png" _ Hin).
Defined.

(** X3. The drop handler is registered once and reads the configuration
    through [configRef]; in every state the application reaches the ref
    holds exactly the current React state, so the command sent for the path
    at index [i] is the one built from the values now on screen. *)
Theorem snapshot_is_current
        (World : Type)
        (invoke : World -> string -> Cmd -> World * Outcome)
        (dateNow : World -> Z) (localeTimeString : World -> string)
        (evs : list (Event World)) (w0 : World) :
  let s := fst (run World invoke dateNow localeTimeString evs (initial_app, w0)) in
  configRef s = state s
  /\ (forall (paths : list string) (w : World) (i : nat) (p : string),
        nth_error paths i = Some p ->
        nth_error (calls_of_drop invoke dateNow localeTimeString paths s w) i
        = Some (p, build_cmd (state s) (seq_init (state s) + Z.of_nat i))).
Proof.
  intros s.
  destruct (reachable_settled_bounded World invoke dateNow localeTimeString evs w0)
    as (Href & _).
  fold s in Href. split; [exact Href|].
  intros paths w i p Hi.
  rewrite (call_of_drop_nth World invoke dateNow localeTimeString paths s w i p Hi),
    Href.
  reflexivity.
Qed.

Lemma snapshot_is_current_witness :
  nth_error ["a.png"; "b.png"] 1 = Some "b.png"
  /\ nth_error
       (calls_of_drop sample_invoke sample_dateNow sample_localeTimeString
                      ["a.png"; "b.png"]
                      (fst (run nat sample_invoke sample_dateNow
                                sample_localeTimeString
                                [Ui (SelectTab add); Ui (TypeAddText "_old")]
                                (initial_app, 0%nat)))
                      0%nat) 1
     = Some ("b.png", Add (AddConfig.mk "_old" pos_end)).
Proof.
  split; [reflexivity|].
  exact (proj2 (snapshot_is_current
                  nat sample_invoke sample_dateNow sample_localeTimeString
                  [Ui (SelectTab add); Ui (TypeAddText "_old")] 0%nat)
               ["a.png"; "b.png"] 0%nat 1%nat "b.png" eq_refl).
Defined.

(** X4. Outside the Serial tab the sequence number reaches no command:
    every path of a drop is sent the same command, whether manual mode is
    on or not.  The stored counter is advanced all the same: with manual
    mode on, a drop of N paths on any tab moves it by N. *)
Theorem number_reaches_only_serial_commands
        (World : Type)
        (invoke : World -> string -> Cmd -> World * Outcome)
        (dateNow : World -> Z) (localeTimeString : World -> string)
        (s : AppState) (w : World) (paths : list string) :
  configRef s = state s ->
  activeTab (state s) <> serial ->
  let s1 := fst (onDragDropEvent World invoke dateNow localeTimeString
                                 (drop paths) s w) in
  calls_of_drop invoke dateNow localeTimeString paths s w
  = map (fun p => (p, build_cmd (state s) 0)) paths
  /\ (manualIncrement (state s) = true ->
      currentManualCount (state s1)
      = currentManualCount (state s) + Z.of_nat (List.length paths)).
Proof.
  intros Href Htab s1. split.
  - rewrite calls_of_drop_eq, Href. apply calls_from_outside_serial. exact Htab.
  - intros Hm.
    exact (proj2 (proj2 (manual_drop_step World invoke dateNow localeTimeString
                                          paths s w Href Hm))).
Qed.

Lemma number_reaches_only_serial_commands_witness :
  (configRef (on_ui (CheckManualIncrement true) initial_app)
   = state (on_ui (CheckManualIncrement true) initial_app)
   /\ activeTab (state (on_ui (CheckManualIncrement true) initial_app)) <> serial
   /\ manualIncrement (state (on_ui (CheckManualIncrement true) initial_app)) = true)
  /\ currentManualCount
       (state (fst (onDragDropEvent nat sample_invoke sample_dateNow
                                    sample_localeTimeString
                                    (drop ["a.png"; "b.png"])
                                    (on_ui (CheckManualIncrement true) initial_app)
                                    0%nat)))
     = 1 + 2.
Proof.
  assert (Htab : activeTab (state (on_ui (CheckManualIncrement true) initial_app))
                 <> serial) by discriminate.
  split; [split; [reflexivity | split; [exact Htab | reflexivity]]|].
  exact (proj2 (number_reaches_only_serial_commands
                  nat sample_invoke sample_dateNow sample_localeTimeString
                  (on_ui (CheckManualIncrement true) initial_app) 0%nat
                  ["a.png"; "b.png"] eq_refl Htab)
               eq_refl).
Defined.

(** X5. Within one drop the Serial numbers follow the indices under both
    policies: the numbers sent for the paths at indices [i] and [j] differ
    by exactly [j - i], so no two paths of a drop are given the same
    number. *)
Theorem serial_numbers_follow_indices
        (World : Type)
        (invoke : World -> string -> Cmd -> World * Outcome)
        (dateNow : World -> Z) (localeTimeString : World -> string)
        (s : AppState) (w : World) (paths : list string)
        (i j : nat) (p q : string) (c d : SerialConfig.t) :
  nth_error (calls_of_drop invoke dateNow localeTimeString paths s w) i
  = Some (p, Serial c) ->
  nth_error (calls_of_drop invoke dateNow localeTimeString paths s w) j
  = Some (q, Serial d) ->
  SerialConfig.number d - SerialConfig.number c = Z.of_nat j - Z.of_nat i
  /\ (i <> j -> SerialConfig.number c <> SerialConfig.number d).
Proof.
  assert (Hnum : forall k r e,
             nth_error (calls_of_drop invoke dateNow localeTimeString paths s w) k
             = Some (r, Serial e) ->
             SerialConfig.number e = seq_init (configRef s) + Z.of_nat k).
  { intros k r e Hk.
    destruct (nth_error paths k) as [r'|] eqn:Hr.
    - rewrite (call_of_drop_nth World invoke dateNow localeTimeString
                                paths s w k r' Hr) in Hk.
      injection Hk as _ Hcmd.
      exact (proj1 (proj2 (build_cmd_serial_number _ _ _ Hcmd))).
    - apply nth_error_None in Hr.
      assert (Hnone : nth_error (calls_of_drop invoke dateNow localeTimeString
                                               paths s w) k = None).
      { apply nth_error_None. rewrite calls_of_drop_eq, calls_from_length.
        exact Hr. }
      unfold Call in *. rewrite Hnone in Hk. discriminate. }
  intros Hi Hj. rewrite (Hnum _ _ _ Hi), (Hnum _ _ _ Hj). split; lia.
Qed.

Lemma serial_numbers_follow_indices_witness :
  (nth_error (calls_of_drop sample_invoke sample_dateNow sample_localeTimeString
                            ["a.png"; "b.png"; "c.png"] sample_manual_app 0%nat) 0
   = Some ("a.png", Serial (SerialConfig.mk "Img_" "" 1 3 true true))
   /\ nth_error (calls_of_drop sample_invoke sample_dateNow sample_localeTimeString
                               ["a.png"; "b.png"; "c.png"] sample_manual_app 0%nat) 2
      = Some ("c.png", Serial (SerialConfig.mk "Img_" "" 3 3 true true)))
  /\ SerialConfig.number (SerialConfig.mk "Img_" "" 3 3 true true)
     - SerialConfig.number (SerialConfig.mk "Img_" "" 1 3 true true)
     = Z.of_nat 2 - Z.of_nat 0.
Proof.
  split; [split; reflexivity|].
  exact (proj1 (serial_numbers_follow_indices
                  nat sample_invoke sample_dateNow sample_localeTimeString
                  sample_manual_app 0%nat ["a.png"; "b.png"; "c.png"]
                  0%nat 2%nat "a.png" "c.png" _ _ eq_refl eq_refl)).
Defined.

(** X6. What the 50-entry cap does to a non-empty drop of N paths: the log
    then holds min(50, N + earlier length) entries; when N is at most 50
    all the batch's entries are followed by the newest 50 - N earlier ones;
    when N is at least 50 the log is the newest 50 entries of the batch
    alone; and the entry of the path at index [i] is in the log, at
    position N - 1 - i, exactly when that position is below 50. *)
Theorem log_after_drop_by_batch_size
        (World : Type)
        (invoke : World -> string -> Cmd -> World * Outcome)
        (dateNow : World -> Z) (localeTimeString : World -> string)
        (s : AppState) (w : World) (p0 : string) (rest : list string) :
  let paths := p0 :: rest in
  let N := List.length paths in
  let entries := entries_of_drop invoke dateNow localeTimeString paths s w in
  let s1 := fst (onDragDropEvent World invoke dateNow localeTimeString
                                 (drop paths) s w) in
  List.length (logs s1) = Nat.min 50 (N + List.length (logs s))
  /\ ((N <= 50)%nat -> logs s1 = (entries ++ firstn (50 - N) (logs s))%list)
  /\ ((50 <= N)%nat -> logs s1 = firstn 50 entries)
  /\ (forall i p, nth_error paths i = Some p ->
        nth_error (logs s1) (N - 1 - i)
        = if (N - 1 - i <? 50)%nat
          then Some (iteration_entry invoke dateNow localeTimeString
                       (configRef s) (Z.of_nat i) p
                       (state_before invoke dateNow localeTimeString
                                     (configRef s) paths
                                     (loop_entry World (configRef s) s w) i))
          else None).
Proof.
  intros paths N entries s1.
  assert (Hlogs : logs s1 = firstn 50 (entries ++ logs s)%list).
  { apply logs_after_drop. discriminate. }
  assert (Hlen : List.length entries = N).
  { apply entries_length. }
  split; [|split; [|split]].
  - rewrite Hlogs, length_firstn, length_app, Hlen. reflexivity.
  - intros Hsmall. rewrite Hlogs, firstn_app, Hlen.
    rewrite firstn_all2 by (rewrite Hlen; exact Hsmall). reflexivity.
  - intros Hbig. rewrite Hlogs, firstn_app, Hlen.
    replace (50 - N)%nat with 0%nat by lia.
    cbn [firstn]. apply app_nil_r.
  - intros i p Hi.
    pose proof (entries_nth World invoke dateNow localeTimeString paths s w i p Hi)
      as Hnth.
    fold entries N in Hnth.
    assert (HiN : (i < N)%nat).
    { apply nth_error_Some. rewrite Hi. discriminate. }
    rewrite Hlogs. destruct (Nat.ltb_spec (N - 1 - i) 50) as [Hlt|Hge].
    + rewrite nth_error_firstn.
      destruct (Nat.ltb_spec (N - 1 - i) 50) as [_|Hge]; [|lia].
      rewrite nth_error_app1 by (rewrite Hlen; lia). exact Hnth.
    + apply nth_error_None. rewrite length_firstn. lia.
Qed.

Lemma log_after_drop_by_batch_size_witness :
  (List.length ["a.png"; "b.png"] <= 50)%nat
  /\ logs (fst (onDragDropEvent nat sample_invoke sample_dateNow
                                sample_localeTimeString
                                (drop ["a.png"; "b.png"])
                                sample_serial_app 0%nat))
     = (entries_of_drop sample_invoke sample_dateNow sample_localeTimeString
                        ["a.png"; "b.png"] sample_serial_app 0%nat
        ++ firstn (50 - 2) (logs sample_serial_app))%list.
Proof.
  assert (Hsmall : (List.length ["a.png"; "b.png"] <= 50)%nat).
  { apply Nat.leb_le. reflexivity. }
  split; [exact Hsmall|].
  exact (proj1 (proj2 (log_after_drop_by_batch_size
                         nat sample_invoke sample_dateNow sample_localeTimeString
                         sample_serial_app 0%nat "a.png" ["b.png"]))
               Hsmall).
Defined.

(** X7. A drop touches nothing of the configuration but the stored
    counter: on a settled state, the active tab, every text, flag,
    position and stepper value, and the log panel's open/closed flag are
    after the drop what they were before it; the ref is settled again and
    the drag-over highlight is off. *)
Theorem drop_leaves_configuration_alone
        (World : Type)
        (invoke : World -> string -> Cmd -> World * Outcome)
        (dateNow : World -> Z) (localeTimeString : World -> string)
        (s : AppState) (w : World) (paths : list string) :
  configRef s = state s ->
  let s1 := fst (onDragDropEvent World invoke dateNow localeTimeString
                                 (drop paths) s w) in
  (activeTab (state s1) = activeTab (state s)
   /\ fixedName (state s1) = fixedName (state s)
   /\ keepExt (state s1) = keepExt (state s)
   /\ serialText (state s1) = serialText (state s)
   /\ serialPosition (state s1) = serialPosition (state s)
   /\ serialStart (state s1) = serialStart (state s)
   /\ serialPad (state s1) = serialPad (state s)
   /\ removeOriginal (state s1) = removeOriginal (state s)
   /\ manualIncrement (state s1) = manualIncrement (state s)
   /\ replaceFrom (state s1) = replaceFrom (state s)
   /\ replaceTo (state s1) = replaceTo (state s)
   /\ useRegex (state s1) = useRegex (state s)
   /\ addText (state s1) = addText (state s)
   /\ addPos (state s1) = addPos (state s)
   /\ trimCount (state s1) = trimCount (state s)
   /\ trimPos (state s1) = trimPos (state s)
   /\ newExtension (state s1) = newExtension (state s))
  /\ showLogs s1 = showLogs s
  /\ isDragOver s1 = false
  /\ configRef s1 = state s1.
Proof.
  intros Href s1. split; [|split; [|split]].
  - unfold s1. rewrite drop_state_settled by exact Href.
    destruct (state s); cbn. destruct manualIncrement0; cbn; repeat split.
  - unfold s1. rewrite handler_drop_eq. destruct paths; reflexivity.
  - unfold s1. rewrite handler_drop_eq. destruct paths; reflexivity.
  - apply drop_keeps_settled. exact Href.
Qed.

Lemma drop_leaves_configuration_alone_witness :
  configRef sample_manual_app = state sample_manual_app
  /\ serialStart
       (state (fst (onDragDropEvent nat sample_invoke sample_dateNow
                                    sample_localeTimeString
                                    (drop ["a.png"; "b.png"])
                                    sample_manual_app 0%nat)))
     = serialStart (state sample_manual_app).
Proof.
  split; [reflexivity|].
  pose proof (drop_leaves_configuration_alone
                nat sample_invoke sample_dateNow sample_localeTimeString
                sample_manual_app 0%nat ["a.png"; "b.png"] eq_refl) as H.
  cbn zeta in H. destruct H as ((_ & _ & _ & _ & _ & H & _) & _).
  exact H.
Defined.

(** *** Log ids *)

Lemma mentions_after_separator ch a y :
  mentions ch (a ++ String ch y) = true.
Proof.
  induction a as [|c a IH]; simpl.
  - rewrite Ascii.eqb_refl. reflexivity.
  - rewrite IH. apply Bool.orb_true_r.
Qed.

(** A text is cut in only one way at a separator that its tail avoids. *)
Lemma append_last_separator ch : forall a b x y,
  mentions ch x = false -> mentions ch y = false ->
  a ++ String ch x = b ++ String ch y -> a = b /\ x = y.
Proof.
  induction a as [|c a IH]; intros b x y Hx Hy Heq.
  - destruct b as [|c' b]; simpl in Heq.
    + injection Heq as ->. split; reflexivity.
    + injection Heq as _ ->. rewrite mentions_after_separator in Hx. discriminate.
  - destruct b as [|c' b]; simpl in Heq.
    + injection Heq as _ <-. rewrite mentions_after_separator in Hy. discriminate.
    + injection Heq as -> Heq.
      destruct (IH b x y Hx Hy Heq) as (-> & ->). split; reflexivity.
Qed.

Lemma string_of_uint_no_dash d :
  mentions "-"%char (NilEmpty.string_of_uint d) = false.
Proof. induction d; simpl; auto. Qed.

Lemma show_number_no_dash z :
  0 <= z -> mentions "-"%char (show_number z) = false.
Proof.
  intros Hz. unfold show_number. destruct z as [|p|p].
  - reflexivity.
  - apply string_of_uint_no_dash.
  - lia.
Qed.

Lemma show_number_inj a b : show_number a = show_number b -> a = b.
Proof.
  unfold show_number. intros H.
  apply DecimalZ.to_int_inj.
  apply (f_equal NilEmpty.int_of_string) in H.
  rewrite !NilEmpty.isi in H. injection H as H. exact H.
Qed.

(** Ids built from different counter values differ, whatever the clock. *)
Lemma log_id_counter_inj now now' c c' :
  0 <= c -> 0 <= c' -> log_id now c = log_id now' c' -> c = c'.
Proof.
  intros Hc Hc' Heq. unfold log_id in Heq. simpl in Heq.
  injection Heq as Heq.
  apply append_last_separator in Heq as (_ & Heq).
  - apply show_number_inj. exact Heq.
  - apply show_number_no_dash. exact Hc.
  - apply show_number_no_dash. exact Hc'.
Qed.

Lemma ids_descend_weaken l : forall k k',
  k <= k' -> ids_descend k l -> ids_descend k' l.
Proof.
  destruct l as [|e l]; intros k k' Hk H; simpl in *.
  - exact I.
  - destruct H as (now & c & Hid & Hc & Hrest).
    exists now, c. repeat split; try assumption; lia.
Qed.

Lemma ids_descend_firstn n : forall l k,
  ids_descend k l -> ids_descend k (firstn n l).
Proof.
  induction n as [|n IH]; intros l k H.
  - exact I.
  - destruct l as [|e l]; [exact I|].
    simpl in *. destruct H as (now & c & Hid & Hc & Hrest).
    exists now, c. split; [exact Hid | split; [exact Hc | apply IH; exact Hrest]].
Qed.

Lemma ids_descend_In l : forall k e,
  ids_descend k l -> In e l ->
  exists now c, le_id e = log_id now c /\ 0 <= c < k.
Proof.
  induction l as [|e0 l IH]; intros k e H Hin; simpl in *.
  - contradiction.
  - destruct H as (now & c & Hid & Hc & Hrest).
    destruct Hin as [<-|Hin].
    + exists now, c. split; assumption.
    + destruct (IH c e Hrest Hin) as (now' & c' & Hid' & Hc').
      exists now', c'. split; [exact Hid' | lia].
Qed.

Lemma ids_descend_NoDup l : forall k,
  ids_descend k l -> NoDup (map le_id l).
Proof.
  induction l as [|e l IH]; intros k H; simpl in *.
  - constructor.
  - destruct H as (now & c & Hid & Hc & Hrest).
    constructor; [|exact (IH c Hrest)].
    intros Hin. apply in_map_iff in Hin as (e' & Heq & Hin).
    destruct (ids_descend_In l c e' Hrest Hin) as (now' & c' & Hid' & Hc').
    rewrite Hid, Hid' in Heq.
    apply log_id_counter_inj in Heq; lia.
Qed.

Section IdFacts.

Variable World : Type.
Variable invoke : World -> string -> Cmd -> World * Outcome.
Variable dateNow : World -> Z.
Variable localeTimeString : World -> string.

Local Abbreviation loop' := (loop World invoke dateNow localeTimeString).
Local Abbreviation loop_body' := (loop_body World invoke dateNow localeTimeString).
Local Abbreviation handler := (onDragDropEvent World invoke dateNow localeTimeString).
Local Abbreviation step' := (step World invoke dateNow localeTimeString).

(** The id of an iteration's entry: the clock after the call, and the
    counter value the iteration found. *)
Lemma iteration_entry_id cfg i p st :
  le_id (iteration_entry invoke dateNow localeTimeString cfg i p st)
  = log_id (dateNow (world (loop_body' cfg i p st))) (logIdCounter st).
Proof.
  rewrite loop_body_world. unfold iteration_entry.
  destruct (snd (invoke _ _ _)); reflexivity.
Qed.

Lemma loop_ids_descend cfg older paths : forall i st,
  0 <= logIdCounter st ->
  ids_descend (logIdCounter st) (newLogs st ++ older)%list ->
  ids_descend (logIdCounter (loop' cfg paths i st))
              (newLogs (loop' cfg paths i st) ++ older)%list.
Proof.
  induction paths as [|p paths IH]; intros i st Hpos Hdesc.
  - exact Hdesc.
  - cbn [loop]. apply IH.
    + rewrite loop_body_logIdCounter. lia.
    + rewrite loop_body_logIdCounter, loop_body_entry. cbn [app ids_descend].
      eexists _, (logIdCounter st). split; [apply iteration_entry_id|].
      split; [lia | exact Hdesc].
Qed.

Lemma step_ids_descend ev sw :
  0 <= idCounter (fst sw) /\ ids_descend (idCounter (fst sw)) (logs (fst sw)) ->
  0 <= idCounter (fst (step' ev sw))
  /\ ids_descend (idCounter (fst (step' ev sw))) (logs (fst (step' ev sw))).
Proof.
  intros (Hpos & Hdesc). destruct ev as [e|payload|w']; cbn [step fst].
  - rewrite idCounter_after_ui, logs_after_ui. split; assumption.
  - destruct payload as [ps| |ps|]; try (split; assumption).
    rewrite handler_drop_eq. destruct ps as [|p ps]; [split; assumption|].
    cbn zeta. cbn [fst idCounter logs]. split.
    + rewrite loop_logIdCounter. unfold loop_entry. cbn [logIdCounter]. lia.
    + apply ids_descend_firstn, loop_ids_descend; assumption.
  - split; assumption.
Qed.

Lemma reachable_ids_descend evs w0 :
  let s := fst (run World invoke dateNow localeTimeString evs (initial_app, w0)) in
  0 <= idCounter s /\ ids_descend (idCounter s) (logs s).
Proof.
  apply (run_invariant World invoke dateNow localeTimeString
           (fun s => 0 <= idCounter s /\ ids_descend (idCounter s) (logs s))
           step_ids_descend).
  cbn. split; [lia | exact I].
Qed.

End IdFacts.

(** X8. In every state the application reaches, the ids of the entries in
    the log are pairwise distinct, whatever the clock reads (also when
    [Date.now()] repeats or goes back): they can serve as React keys. *)
Theorem log_ids_are_unique
        (World : Type)
        (invoke : World -> string -> Cmd -> World * Outcome)
        (dateNow : World -> Z) (localeTimeString : World -> string)
        (evs : list (Event World)) (w0 : World) :
  NoDup (map le_id
             (logs (fst (run World invoke dateNow localeTimeString evs
                             (initial_app, w0))))).
Proof.
  destruct (reachable_ids_descend World invoke dateNow localeTimeString evs w0)
    as (_ & Hdesc).
  exact (ids_descend_NoDup _ _ Hdesc).
Qed.

(** X9. [nextLogId] is called exactly once per path, also for a path
    whose call is rejected: a drop of N paths advances [logIdCounter] by N,
    and the entry of the path at index [i] has the id made of the clock
    reading after that path's call and of the counter value
    [logIdCounter + i]. *)
Theorem one_log_id_per_path
        (World : Type)
        (invoke : World -> string -> Cmd -> World * Outcome)
        (dateNow : World -> Z) (localeTimeString : World -> string)
        (s : AppState) (w : World) (paths : list string) :
  let cfg := configRef s in
  let st0 := loop_entry World cfg s w in
  let before := state_before invoke dateNow localeTimeString cfg paths st0 in
  let s1 := fst (onDragDropEvent World invoke dateNow localeTimeString
                                 (drop paths) s w) in
  idCounter s1 = idCounter s + Z.of_nat (List.length paths)
  /\ (forall i p, nth_error paths i = Some p ->
        exists e,
          nth_error (entries_of_drop invoke dateNow localeTimeString paths s w)
                    (List.length paths - 1 - i) = Some e
          /\ le_id e = log_id (dateNow (world (before (S i))))
                              (idCounter s + Z.of_nat i)).
Proof.
  intros cfg st0 before s1. split.
  - apply idCounter_after_drop.
  - intros i p Hi. eexists. split.
    + apply entries_nth. exact Hi.
    + rewrite iteration_entry_id. unfold before.
      rewrite (state_before_S _ _ _ _ _ _ _ _ p Hi). f_equal.
      unfold state_before. rewrite loop_logIdCounter, length_firstn.
      assert (Hlt : (i < List.length paths)%nat).
      { apply nth_error_Some. rewrite Hi. discriminate. }
      rewrite Nat.min_l by lia. reflexivity.
Qed.

Lemma one_log_id_per_path_witness :
  nth_error ["a.png"; ""] 1 = Some ""
  /\ exists e,
       nth_error (entries_of_drop sample_invoke sample_dateNow
                                  sample_localeTimeString ["a.png"; ""]
                                  sample_serial_app 0%nat) (2 - 1 - 1)
       = Some e
       /\ le_id e = "log-1700000000002-1".
Proof.
  split; [reflexivity|].
  destruct (proj2 (one_log_id_per_path
                     nat sample_invoke sample_dateNow sample_localeTimeString
                     sample_serial_app 0%nat ["a.png"; ""])
                  1%nat "" eq_refl) as (e & He & Hid).
  exists e. split; [exact He | exact Hid].
Defined.

(** *** The handler taken piece by piece *)

Lemma with_idCounter_same a : with_idCounter (idCounter a) a = a.
Proof. destruct a; reflexivity. Qed.

Lemma on_ui_with_idCounter e c a :
  on_ui e (with_idCounter c a) = with_idCounter c (on_ui e a).
Proof.
  unfold on_ui. cbn [with_idCounter state].
  destruct (ui_update e (state a)); reflexivity.
Qed.

Lemma ui_fold_with_idCounter es : forall c a,
  ui_fold es (with_idCounter c a) = with_idCounter c (ui_fold es a).
Proof.
  induction es as [|e es IH]; intros c a.
  - reflexivity.
  - unfold ui_fold in *. cbn [fold_left]. rewrite on_ui_with_idCounter. apply IH.
Qed.

Lemma idCounter_ui_fold es : forall a, idCounter (ui_fold es a) = idCounter a.
Proof.
  induction es as [|e es IH]; intros a.
  - reflexivity.
  - unfold ui_fold in *. cbn [fold_left]. rewrite IH. apply idCounter_after_ui.
Qed.

Lemma commit_drop_with_idCounter (World : Type) cfg (st : LoopState World) c a :
  commit_drop cfg st (with_idCounter c a) = commit_drop cfg st a.
Proof. reflexivity. Qed.

Lemma loop_state_eta (World : Type) (st : LoopState World) :
  mkLoop (world st) (logIdCounter st) (newLogs st) (currentSeq st) = st.
Proof. destruct st; reflexivity. Qed.

Lemma skipn_all_but_one (A : Type) (l : list A) (k : nat) :
  List.length l = S k -> exists x, skipn k l = [x] /\ l = (firstn k l ++ [x])%list.
Proof.
  intros Hlen.
  assert (Hs : List.length (skipn k l) = 1%nat) by (rewrite length_skipn; lia).
  destruct (skipn k l) as [|x [|y t]] eqn:Hsk; try discriminate.
  exists x. split; [reflexivity|].
  rewrite <- Hsk. symmetry. apply firstn_skipn.
Qed.

Section AsyncFacts.

Variable World : Type.
Variable invoke : World -> string -> Cmd -> World * Outcome.
Variable dateNow : World -> Z.
Variable localeTimeString : World -> string.

Local Abbreviation loop' := (loop World invoke dateNow localeTimeString).
Local Abbreviation loop_body' := (loop_body World invoke dateNow localeTimeString).
Local Abbreviation handler := (onDragDropEvent World invoke dateNow localeTimeString).
Local Abbreviation arun := (async_run World invoke dateNow localeTimeString).
Local Abbreviation astep := (async_step World invoke dateNow localeTimeString).

Lemma async_run_app evs1 evs2 y :
  arun (evs1 ++ evs2)%list y = arun evs2 (arun evs1 y).
Proof. unfold async_run. apply fold_left_app. Qed.

(** The atomic handler is the loop followed by the commit. *)
Lemma handler_is_loop_then_commit p ps s w :
  handler (drop (p :: ps)) s w
  = let cfg := configRef s in
    let st := loop' cfg (p :: ps) 0 (loop_entry World cfg s w) in
    (commit_drop cfg st (setIsDragOver false s), world st).
Proof. reflexivity. Qed.

(** The oldest handler in flight is resumed, with controls used in
    between, fewer times than it has paths left: it stays in flight, has
    run its loop over the paths served so far, and the controls have
    acted on the component as if no drop were in flight. *)
Lemma ticks_progress ts : forall cfg rest i nl cs a w others,
  (ticks_resumes ts < List.length rest)%nat ->
  let st := loop' cfg (firstn (ticks_resumes ts) rest) i
                  (mkLoop w (idCounter a) nl cs) in
  arun (map tick_event ts)
       (mkSys a w (mkSuspended cfg rest i nl cs :: others))
  = mkSys (with_idCounter (logIdCounter st) (ui_fold (ticks_ui ts) a))
          (world st)
          (mkSuspended cfg (skipn (ticks_resumes ts) rest)
                       (i + Z.of_nat (ticks_resumes ts))
                       (newLogs st) (currentSeq st) :: others).
Proof.
  induction ts as [|t ts IH]; intros cfg rest i nl cs a w others Hlt.
  - cbn. rewrite Z.add_0_r, with_idCounter_same. reflexivity.
  - destruct t as [e|].
    + cbn [map tick_event ticks_resumes ticks_ui] in *.
      unfold async_run in *. cbn [fold_left async_step sys_app sys_env sys_pending].
      rewrite IH by exact Hlt. rewrite idCounter_after_ui. reflexivity.
    + cbn [map tick_event ticks_resumes ticks_ui] in *.
      destruct rest as [|p rest]; [cbn in Hlt; lia|].
      destruct rest as [|q rest]; [cbn in Hlt; lia|].
      unfold async_run in *. cbn [fold_left async_step].
      unfold resume.
      cbn [sys_pending nth_error sp_rest sp_cfg sp_i sp_newLogs sp_currentSeq
           sys_app sys_env replace_nth firstn skipn app].
      rewrite IH by (cbn in Hlt |- *; lia).
      cbn [idCounter with_idCounter].
      rewrite (loop_state_eta World (loop_body' cfg i p (mkLoop w (idCounter a) nl cs))).
      cbn [firstn loop skipn].
      rewrite ui_fold_with_idCounter. cbn [with_idCounter state logs showLogs
                                           isDragOver configRef].
      f_equal. f_equal. f_equal. lia.
Qed.

(** The same, up to the end of the handler: resumed as many times as it
    has paths left, it has run its whole loop and committed onto the
    component as the controls left it. *)
Lemma ticks_complete ts cfg rest i nl cs a w others :
  List.length rest = S (ticks_resumes ts) ->
  let st := loop' cfg rest i (mkLoop w (idCounter a) nl cs) in
  arun (map tick_event ts ++ [AResume 0])%list
       (mkSys a w (mkSuspended cfg rest i nl cs :: others))
  = mkSys (commit_drop cfg st (ui_fold (ticks_ui ts) a)) (world st) others.
Proof.
  intros Hlen. cbn zeta.
  rewrite async_run_app, ticks_progress by lia.
  destruct (skipn_all_but_one _ rest _ Hlen) as (x & Hsk & Hrest).
  set (k := ticks_resumes ts) in *.
  set (stk := loop' cfg (firstn k rest) i (mkLoop w (idCounter a) nl cs)).
  assert (Hloop : loop' cfg rest i (mkLoop w (idCounter a) nl cs)
                  = loop_body' cfg (i + Z.of_nat k) x stk).
  { rewrite Hrest at 1. rewrite loop_snoc, length_firstn, Nat.min_l by lia.
    reflexivity. }
  rewrite Hloop, Hsk.
  unfold async_run. cbn [fold_left async_step]. unfold resume.
  cbn [sys_pending nth_error sp_rest sp_cfg sp_i sp_newLogs sp_currentSeq
       sys_app sys_env remove_nth firstn skipn app].
  cbn [idCounter with_idCounter].
  rewrite (loop_state_eta World stk).
  reflexivity.
Qed.

Lemma repeat_resume_ticks n :
  repeat (@AResume World 0) (S n)
  = (map tick_event (repeat TResume n) ++ [AResume 0])%list.
Proof.
  induction n as [|n IH].
  - reflexivity.
  - cbn [repeat map tick_event app] in *. rewrite <- IH. reflexivity.
Qed.

Lemma ticks_ui_repeat_resume n : ticks_ui (repeat TResume n) = [].
Proof. induction n; [reflexivity | exact IHn]. Qed.

Lemma ticks_resumes_repeat_resume n : ticks_resumes (repeat TResume n) = n.
Proof. induction n; [reflexivity | cbn; rewrite IHn; reflexivity]. Qed.

End AsyncFacts.

Lemma logs_ui_fold es : forall a, logs (ui_fold es a) = logs a.
Proof.
  induction es as [|e es IH]; intros a.
  - reflexivity.
  - unfold ui_fold in *. cbn [fold_left]. rewrite IH. apply logs_after_ui.
Qed.

Lemma on_ui_setIsDragOver e b a :
  on_ui e (setIsDragOver b a) = setIsDragOver b (on_ui e a)
  \/ (ui_update e (state a) = None).
Proof.
  unfold on_ui. cbn [setIsDragOver state].
  destruct (ui_update e (state a)); [left; reflexivity | right; reflexivity].
Qed.

Lemma state_on_ui_irrelevant e a a' :
  state a = state a' -> state (on_ui e a) = state (on_ui e a').
Proof.
  intros H. unfold on_ui. rewrite H.
  destruct (ui_update e (state a')); [|exact H].
  unfold set_config, render. cbn [state]. rewrite H. reflexivity.
Qed.

Lemma state_ui_fold_irrelevant es : forall a a',
  state a = state a' -> state (ui_fold es a) = state (ui_fold es a').
Proof.
  induction es as [|e es IH]; intros a a' H.
  - exact H.
  - unfold ui_fold in *. cbn [fold_left]. apply IH, state_on_ui_irrelevant, H.
Qed.

Lemma state_commit_drop (World : Type) cfg (st : LoopState World) a :
  state (commit_drop cfg st a)
  = if manualIncrement cfg
    then apply_update (setCurrentManualCount (currentSeq st)) (state a)
    else state a.
Proof.
  unfold commit_drop. destruct (manualIncrement cfg); [|reflexivity].
  rewrite set_count_settles. reflexivity.
Qed.

Lemma logs_commit_drop (World : Type) cfg (st : LoopState World) a :
  logs (commit_drop cfg st a) = firstn 50 (newLogs st ++ logs a)%list.
Proof.
  unfold commit_drop. destruct (manualIncrement cfg); [|reflexivity].
  rewrite set_count_settles. reflexivity.
Qed.

Lemma idCounter_commit_drop (World : Type) cfg (st : LoopState World) a :
  idCounter (commit_drop cfg st a) = logIdCounter st.
Proof.
  unfold commit_drop. destruct (manualIncrement cfg); [|reflexivity].
  rewrite set_count_settles. reflexivity.
Qed.

Lemma configRef_commit_drop (World : Type) cfg (st : LoopState World) a :
  configRef (commit_drop cfg st a)
  = if manualIncrement cfg
    then apply_update (setCurrentManualCount (currentSeq st)) (state a)
    else configRef a.
Proof.
  unfold commit_drop. destruct (manualIncrement cfg); [|reflexivity].
  rewrite set_count_settles. reflexivity.
Qed.

Section AsyncDropFacts.

Variable World : Type.
Variable invoke : World -> string -> Cmd -> World * Outcome.
Variable dateNow : World -> Z.
Variable localeTimeString : World -> string.

Local Abbreviation loop' := (loop World invoke dateNow localeTimeString).
Local Abbreviation handler := (onDragDropEvent World invoke dateNow localeTimeString).
Local Abbreviation arun := (async_run World invoke dateNow localeTimeString).

(** One drop in flight, with controls used while it runs: the machine
    ends with the loop of the uninterrupted handler, committed onto the
    component as the controls left it. *)
Lemma drop_with_ticks p0 rest ts s w :
  ticks_resumes ts = List.length rest ->
  let cfg := configRef s in
  let st := loop' cfg (p0 :: rest) 0 (loop_entry World cfg s w) in
  arun (ADragDrop (drop (p0 :: rest)) :: map tick_event ts ++ [AResume 0])%list
       (mkSys s w [])
  = mkSys (commit_drop cfg st (ui_fold (ticks_ui ts) (setIsDragOver false s)))
          (world st) [].
Proof.
  intros Hres. cbn zeta.
  change (arun (ADragDrop (drop (p0 :: rest))
                  :: map tick_event ts ++ [AResume 0])%list (mkSys s w []))
    with (arun (map tick_event ts ++ [AResume 0])%list
               (mkSys (setIsDragOver false s) w
                      [mkSuspended (configRef s) (p0 :: rest) 0 []
                                   (seq_init (configRef s))])).
  rewrite ticks_complete by (cbn [List.length]; rewrite Hres; reflexivity).
  reflexivity.
Qed.

End AsyncDropFacts.

(** X10. The asynchronous handler, resumed once per path with no other
    event in between, is the handler run in one go: a drop followed by as
    many promise resolutions as it has paths leaves the component and the
    world exactly as [onDragDropEvent] run to completion does, and no
    handler in flight. *)
Theorem uninterrupted_async_drop_is_atomic
        (World : Type)
        (invoke : World -> string -> Cmd -> World * Outcome)
        (dateNow : World -> Z) (localeTimeString : World -> string)
        (s : AppState) (w : World) (paths : list string) :
  async_run World invoke dateNow localeTimeString
            (ADragDrop (drop paths) :: repeat (AResume 0) (List.length paths))
            (mkSys s w [])
  = mkSys (fst (onDragDropEvent World invoke dateNow localeTimeString
                                (drop paths) s w))
          (snd (onDragDropEvent World invoke dateNow localeTimeString
                                (drop paths) s w))
          [].
Proof.
  destruct paths as [|p ps].
  - reflexivity.
  - cbn [List.length]. rewrite repeat_resume_ticks.
    rewrite drop_with_ticks by apply ticks_resumes_repeat_resume.
    rewrite ticks_ui_repeat_resume, handler_is_loop_then_commit.
    reflexivity.
Qed.

(** X11. Controls used while a drop is in flight do not reach that drop:
    it works on the snapshot taken when it started.  However control
    events are interleaved with the resolutions of its promises, the drop
    makes the same calls, leaves the same world, adds the same entries and
    ids as when it runs uninterrupted; the configuration is what the
    controls made of it, except that a drop started in manual mode
    overwrites the stored counter with its own snapshot value plus N. *)
Theorem controls_during_a_drop_do_not_reach_it
        (World : Type)
        (invoke : World -> string -> Cmd -> World * Outcome)
        (dateNow : World -> Z) (localeTimeString : World -> string)
        (s : AppState) (w : World) (p0 : string) (rest : list string)
        (ts : list Tick) :
  ticks_resumes ts = List.length rest ->
  let paths := p0 :: rest in
  let cfg := configRef s in
  let final := async_run World invoke dateNow localeTimeString
                         (ADragDrop (drop paths)
                            :: map tick_event ts ++ [AResume 0])%list
                         (mkSys s w []) in
  let atomic := onDragDropEvent World invoke dateNow localeTimeString
                                (drop paths) s w in
  sys_pending final = []
  /\ sys_env final = snd atomic
  /\ async_calls invoke dateNow localeTimeString
                 (ADragDrop (drop paths) :: map tick_event ts ++ [AResume 0])%list
                 s w
     = calls_of_drop invoke dateNow localeTimeString paths s w
  /\ logs (sys_app final) = logs (fst atomic)
  /\ idCounter (sys_app final) = idCounter (fst atomic)
  /\ state (sys_app final)
     = if manualIncrement cfg
       then apply_update
              (setCurrentManualCount
                 (seq_init cfg + Z.of_nat (List.length paths)))
              (state (ui_fold (ticks_ui ts) s))
       else state (ui_fold (ticks_ui ts) s).
Proof.
  intros Hres paths cfg final atomic.
  unfold final, atomic, paths.
  rewrite drop_with_ticks by exact Hres.
  rewrite handler_is_loop_then_commit. cbn zeta.
  cbn [sys_pending sys_env sys_app fst snd].
  split; [reflexivity|]. split; [reflexivity|]. split; [|split; [|split]].
  - unfold async_calls, calls_of_drop.
    rewrite drop_with_ticks by exact Hres.
    rewrite handler_is_loop_then_commit. reflexivity.
  - rewrite !logs_commit_drop, logs_ui_fold. reflexivity.
  - rewrite !idCounter_commit_drop. reflexivity.
  - rewrite state_commit_drop.
    rewrite (state_ui_fold_irrelevant (ticks_ui ts) (setIsDragOver false s) s)
      by reflexivity.
    fold cfg. destruct (manualIncrement cfg) eqn:Hm; [|reflexivity].
    rewrite loop_currentSeq, Hm. reflexivity.
Qed.

Lemma controls_during_a_drop_do_not_reach_it_witness :
  ticks_resumes [TResume; TUi (TypeSerialText "Late_"); TResume] = 2%nat
  /\ async_calls sample_invoke sample_dateNow sample_localeTimeString
                 (ADragDrop (drop ["a.png"; "b.png"; "c.png"])
                    :: map tick_event
                           [TResume; TUi (TypeSerialText "Late_"); TResume]
                    ++ [AResume 0])%list
                 sample_serial_app 0%nat
     = calls_of_drop sample_invoke sample_dateNow sample_localeTimeString
                     ["a.png"; "b.png"; "c.png"] sample_serial_app 0%nat.
Proof.
  split; [reflexivity|].
  exact (proj1 (proj2 (proj2
           (controls_during_a_drop_do_not_reach_it
              nat sample_invoke sample_dateNow sample_localeTimeString
              sample_serial_app 0%nat "a.png" ["b.png"; "c.png"]
              [TResume; TUi (TypeSerialText "Late_"); TResume] eq_refl)))).
Defined.

(** X12. Unticking the manual box while a manual drop is in flight: the
    sync effect first sets the stored counter to [serialStart], then the
    drop, which was started in manual mode, ends and stores its own count.
    The component is left with manual mode off and the stored counter at
    the old counter plus N, and ticking the box again continues from that
    value. *)
Theorem untick_during_manual_drop
        (World : Type)
        (invoke : World -> string -> Cmd -> World * Outcome)
        (dateNow : World -> Z) (localeTimeString : World -> string)
        (s : AppState) (w : World) (p0 : string) (rest : list string)
        (ts : list Tick) :
  configRef s = state s ->
  manualIncrement (state s) = true ->
  ticks_ui ts = [CheckManualIncrement false] ->
  ticks_resumes ts = List.length rest ->
  let paths := p0 :: rest in
  let final := async_run World invoke dateNow localeTimeString
                         (ADragDrop (drop paths)
                            :: map tick_event ts ++ [AResume 0])%list
                         (mkSys s w []) in
  sys_pending final = []
  /\ manualIncrement (state (sys_app final)) = false
  /\ serialStart (state (sys_app final)) = serialStart (state s)
  /\ currentManualCount (state (sys_app final))
     = currentManualCount (state s) + Z.of_nat (List.length paths)
  /\ currentManualCount
       (state (on_ui (CheckManualIncrement true) (sys_app final)))
     = currentManualCount (state s) + Z.of_nat (List.length paths).
Proof.
  intros Href Hm Hui Hres paths final.
  unfold final, paths.
  rewrite drop_with_ticks by exact Hres. cbn zeta.
  cbn [sys_pending sys_app]. split; [reflexivity|].
  set (st := loop World invoke dateNow localeTimeString (configRef s)
                  (p0 :: rest) 0 (loop_entry World (configRef s) s w)).
  assert (Hseq : currentSeq st
                 = currentManualCount (state s) + Z.of_nat (List.length (p0 :: rest))).
  { unfold st. rewrite loop_currentSeq, Href, Hm.
    unfold loop_entry, seq_init. cbn [currentSeq]. rewrite Hm. reflexivity. }
  assert (Hstate : state (commit_drop (configRef s) st
                            (ui_fold (ticks_ui ts) (setIsDragOver false s)))
                   = apply_update
                       (setCurrentManualCount
                          (currentManualCount (state s)
                           + Z.of_nat (List.length (p0 :: rest))))
                       (apply_update (setCurrentManualCount (serialStart (state s)))
                          (apply_update (setManualIncrement false) (state s)))).
  { rewrite state_commit_drop, Href, Hm, Hseq, Hui. f_equal.
    unfold ui_fold, on_ui, set_config, render, sync_effect.
    cbn [fold_left ui_update state setIsDragOver].
    destruct (state s); cbn in Hm |- *. subst.
    rewrite Bool.orb_true_r. reflexivity. }
  split; [|split; [|split]].
  - rewrite Hstate. destruct (state s); reflexivity.
  - rewrite Hstate. destruct (state s); reflexivity.
  - rewrite Hstate. destruct (state s); reflexivity.
  - unfold on_ui, set_config, render, sync_effect. cbn [ui_update state].
    rewrite Hstate. destruct (state s); cbn.
    rewrite Bool.orb_true_r. reflexivity.
Qed.

Lemma untick_during_manual_drop_witness :
  (configRef sample_manual_app = state sample_manual_app
   /\ manualIncrement (state sample_manual_app) = true
   /\ ticks_ui [TResume; TUi (CheckManualIncrement false)]
      = [CheckManualIncrement false]
   /\ ticks_resumes [TResume; TUi (CheckManualIncrement false)] = 1%nat)
  /\ manualIncrement
       (state (sys_app (async_run nat sample_invoke sample_dateNow
                          sample_localeTimeString
                          (ADragDrop (drop ["a.png"; "b.png"])
                             :: map tick_event
                                    [TResume; TUi (CheckManualIncrement false)]
                             ++ [AResume 0])%list
                          (mkSys sample_manual_app 0%nat [])))) = false
  /\ currentManualCount
       (state (sys_app (async_run nat sample_invoke sample_dateNow
                          sample_localeTimeString
                          (ADragDrop (drop ["a.png"; "b.png"])
                             :: map tick_event
                                    [TResume; TUi (CheckManualIncrement false)]
                             ++ [AResume 0])%list
                          (mkSys sample_manual_app 0%nat [])))) = 1 + 2.
Proof.
  split; [repeat split|].
  pose proof (untick_during_manual_drop
                nat sample_invoke sample_dateNow sample_localeTimeString
                sample_manual_app 0%nat "a.png" ["b.png"]
                [TResume; TUi (CheckManualIncrement false)]
                eq_refl eq_refl eq_refl eq_refl) as H.
  cbn zeta in H. destruct H as (_ & H1 & _ & H2 & _).
  split; [exact H1 | exact H2].
Defined.

Section OverlapFacts.

Variable World : Type.
Variable invoke : World -> string -> Cmd -> World * Outcome.
Variable dateNow : World -> Z.
Variable localeTimeString : World -> string.

Local Abbreviation loop' := (loop World invoke dateNow localeTimeString).
Local Abbreviation arun := (async_run World invoke dateNow localeTimeString).
Local Abbreviation astep := (async_step World invoke dateNow localeTimeString).

Lemma async_run_cons ev evs y : arun (ev :: evs) y = arun evs (astep ev y).
Proof. reflexivity. Qed.

Lemma map_tick_repeat n :
  map (@tick_event World) (repeat TResume n) = repeat (AResume 0) n.
Proof.
  induction n as [|n IH]; [reflexivity|]. cbn [repeat map tick_event].
  rewrite IH. reflexivity.
Qed.

Lemma loop_firstn_skipn cfg paths k st0 :
  (k <= List.length paths)%nat ->
  loop' cfg (skipn k paths) (0 + Z.of_nat k) (loop' cfg (firstn k paths) 0 st0)
  = loop' cfg paths 0 st0.
Proof.
  intros Hk. rewrite <- (firstn_skipn k paths) at 3.
  rewrite loop_app, length_firstn, Nat.min_l by exact Hk. reflexivity.
Qed.

(** A second drop starts while the first is awaiting the answer for its
    last path; the first ends, then the second runs to its end. *)
Lemma begin_drop_step p ps a w' pend :
  astep (ADragDrop (drop (p :: ps))) (mkSys a w' pend)
  = mkSys (setIsDragOver false a) w'
          (pend ++ [mkSuspended (configRef a) (p :: ps) 0 []
                                (seq_init (configRef a))])%list.
Proof. reflexivity. Qed.

Lemma overlap_core a0 restA b0 restB s w :
  let cfg := configRef s in
  let stA := loop' cfg (a0 :: restA) 0 (loop_entry World cfg s w) in
  let stB := loop' cfg (b0 :: restB) 0
                   (mkLoop (world stA) (logIdCounter stA) [] (seq_init cfg)) in
  arun (ADragDrop (drop (a0 :: restA))
          :: repeat (AResume 0) (List.length restA)
          ++ ADragDrop (drop (b0 :: restB))
          :: repeat (AResume 0) (1 + List.length (b0 :: restB)))%list
       (mkSys s w [])
  = mkSys (commit_drop cfg stB (commit_drop cfg stA (setIsDragOver false s)))
          (world stB) [].
Proof.
  cbn zeta. unfold loop_entry.
  set (cfg := configRef s).
  set (st0 := mkLoop w (idCounter s) [] (seq_init cfg)).
  set (k := List.length restA).
  rewrite async_run_cons, begin_drop_step.
  cbn [app configRef setIsDragOver]. fold cfg.
  rewrite async_run_app, <- (map_tick_repeat k).
  rewrite ticks_progress
    by (rewrite ticks_resumes_repeat_resume; cbn [List.length]; lia).
  rewrite ticks_ui_repeat_resume, ticks_resumes_repeat_resume.
  cbn [ui_fold fold_left idCounter setIsDragOver]. fold st0.
  set (stk := loop' cfg (firstn k (a0 :: restA)) 0 st0).
  rewrite async_run_cons, begin_drop_step.
  cbn [app configRef setIsDragOver with_idCounter]. fold cfg.
  change (repeat (@AResume World 0) (1 + List.length (b0 :: restB)))
    with ((map tick_event [] ++ [@AResume World 0])
            ++ repeat (@AResume World 0) (S (List.length restB)))%list.
  rewrite async_run_app.
  rewrite ticks_complete
    by (rewrite length_skipn; cbn [List.length ticks_resumes]; unfold k; lia).
  cbn [ticks_ui ui_fold fold_left idCounter setIsDragOver with_idCounter].
  rewrite (loop_state_eta World stk).
  unfold stk. rewrite loop_firstn_skipn by (cbn [List.length]; unfold k; lia).
  rewrite repeat_resume_ticks.
  rewrite ticks_complete
    by (rewrite ticks_resumes_repeat_resume; reflexivity).
  rewrite ticks_ui_repeat_resume. cbn [ui_fold fold_left].
  rewrite idCounter_commit_drop. reflexivity.
Qed.

End OverlapFacts.

(** X13. Drops are not serialised.  When a second drop starts while a
    manual-mode drop is still awaiting the answer for its last path, the
    second drop takes its snapshot before the first has stored its count:
    it sends the calls it would have sent from the state before the first
    drop, so its paths get the numbers v, v+1, ... again, and once both
    have ended the stored counter is v plus the size of the second drop
    only. *)
Theorem overlapping_manual_drops_reuse_numbers
        (World : Type)
        (invoke : World -> string -> Cmd -> World * Outcome)
        (dateNow : World -> Z) (localeTimeString : World -> string)
        (s : AppState) (w : World)
        (a0 : string) (restA : list string)
        (b0 : string) (restB : list string) :
  configRef s = state s ->
  manualIncrement (state s) = true ->
  let A := a0 :: restA in
  let B := b0 :: restB in
  let final := async_run World invoke dateNow localeTimeString
                         (ADragDrop (drop A)
                            :: repeat (AResume 0) (List.length restA)
                            ++ ADragDrop (drop B)
                            :: repeat (AResume 0) (1 + List.length B))%list
                         (mkSys s w []) in
  sys_pending final = []
  /\ currentManualCount (state (sys_app final))
     = currentManualCount (state s) + Z.of_nat (List.length B)
  /\ async_calls invoke dateNow localeTimeString
                 (ADragDrop (drop A)
                    :: repeat (AResume 0) (List.length restA)
                    ++ ADragDrop (drop B)
                    :: repeat (AResume 0) (1 + List.length B))%list
                 s w
     = (calls_of_drop invoke dateNow localeTimeString A s w
        ++ calls_of_drop invoke dateNow localeTimeString B s w)%list.
Proof.
  intros Href Hm A B final. unfold final, A, B.
  rewrite overlap_core. cbn zeta. cbn [sys_pending sys_app].
  split; [reflexivity|]. split.
  - rewrite state_commit_drop, Href, Hm, count_update_currentManualCount.
    rewrite loop_currentSeq, Hm. cbn [currentSeq].
    unfold seq_init. rewrite Hm. reflexivity.
  - unfold async_calls. rewrite overlap_core. cbn zeta. cbn [sys_env].
    rewrite journal_loop. cbn [world currentSeq snd].
    rewrite journal_loop. unfold loop_entry. cbn [world currentSeq snd app].
    rewrite !calls_of_drop_eq. reflexivity.
Qed.

Lemma overlapping_manual_drops_reuse_numbers_witness :
  (configRef sample_manual_app = state sample_manual_app
   /\ manualIncrement (state sample_manual_app) = true)
  /\ currentManualCount
       (state (sys_app (async_run nat sample_invoke sample_dateNow
                          sample_localeTimeString
                          (ADragDrop (drop ["a.png"; "b.png"])
                             :: repeat (AResume 0) 1
                             ++ ADragDrop (drop ["c.png"])
                             :: repeat (AResume 0) (1 + 1))%list
                          (mkSys sample_manual_app 0%nat []))))
     = 1 + 1
  /\ map (fun c => match snd c with
                   | Serial f => SerialConfig.number f
                   | _ => -1
                   end)
         (async_calls sample_invoke sample_dateNow sample_localeTimeString
                      (ADragDrop (drop ["a.png"; "b.png"])
                         :: repeat (AResume 0) 1
                         ++ ADragDrop (drop ["c.png"])
                         :: repeat (AResume 0) (1 + 1))%list
                      sample_manual_app 0%nat)
     = [1; 2; 1].
Proof.
  split; [split; reflexivity|].
  pose proof (overlapping_manual_drops_reuse_numbers
                nat sample_invoke sample_dateNow sample_localeTimeString
                sample_manual_app 0%nat "a.png" ["b.png"] "c.png" []
                eq_refl eq_refl) as H.
  cbn zeta in H. destruct H as (_ & H1 & H2).
  split; [exact H1|]. 
  change (ADragDrop (drop ["a.png"; "b.png"])
            :: repeat (AResume 0) 1
            ++ ADragDrop (drop ["c.png"]) :: repeat (AResume 0) (1 + 1))%list
    with (ADragDrop (World := nat * list Call) (drop ["a.png"; "b.png"])
            :: repeat (AResume 0) (List.length ["b.png"])
            ++ ADragDrop (drop ["c.png"])
            :: repeat (AResume 0) (1 + List.length ["c.png"]))%list.
  rewrite H2. reflexivity.
Defined.

(** *** The sync effect and a drop in flight *)

(** C6. What the code does when the manual box is unticked while a drop
    is in flight.  From the initial state the Serial tab is selected, the
    manual box is ticked, one file is dropped, and the box is unticked
    before the call for that file is answered: once the answer arrives,
    manual mode is off, [serialStart] is 1 and the stored counter is 2, and
    ticking the box again starts from 2 and not from the configured start.
    This holds for every back end, world and path.  With the box unticked
    after the answer instead, the counter is back at 1 as the comment of
    line 99 has it. *)
Theorem untick_mid_drop_leaves_counter_unsynced
        (World : Type)
        (invoke : World -> string -> Cmd -> World * Outcome)
        (dateNow : World -> Z) (localeTimeString : World -> string)
        (w0 : World) (filePath : string) :
  let during :=
    sys_app (async_run World invoke dateNow localeTimeString
               [AUi (SelectTab serial); AUi (CheckManualIncrement true);
                ADragDrop (drop [filePath]);
                AUi (CheckManualIncrement false); AResume 0]
               (mkSys initial_app w0 [])) in
  let after :=
    sys_app (async_run World invoke dateNow localeTimeString
               [AUi (SelectTab serial); AUi (CheckManualIncrement true);
                ADragDrop (drop [filePath]);
                AResume 0; AUi (CheckManualIncrement false)]
               (mkSys initial_app w0 [])) in
  (manualIncrement (state during) = false
   /\ serialStart (state during) = 1
   /\ currentManualCount (state during) = 2
   /\ currentManualCount (state (on_ui (CheckManualIncrement true) during)) = 2)
  /\ (manualIncrement (state after) = false
      /\ serialStart (state after) = 1
      /\ currentManualCount (state after) = 1
      /\ currentManualCount (state (on_ui (CheckManualIncrement true) after)) = 1).
Proof.
  cbn zeta. unfold async_run. cbn [fold_left async_step begin_event].
  unfold resume. cbn. unfold loop_body. cbn.
  destruct (invoke w0 filePath _) as [w1 out]. cbn.
  repeat split.
Qed.

(** *** Invariants of the asynchronous machine *)

Lemma Forall_firstn_keeps (A : Type) (P : A -> Prop) n : forall l,
  Forall P l -> Forall P (firstn n l).
Proof.
  induction n as [|n IH]; intros l H.
  - constructor.
  - destruct l as [|a l]; [constructor|].
    inversion H; subst. cbn [firstn]. constructor; [assumption | apply IH; assumption].
Qed.

Lemma Forall_skipn_keeps (A : Type) (P : A -> Prop) n : forall l,
  Forall P l -> Forall P (skipn n l).
Proof.
  induction n as [|n IH]; intros l H.
  - exact H.
  - destruct l as [|a l]; [constructor|].
    inversion H; subst. cbn [skipn]. apply IH. assumption.
Qed.

Lemma nth_error_cut (A : Type) (l : list A) k x :
  nth_error l k = Some x -> l = (firstn k l ++ x :: skipn (S k) l)%list.
Proof.
  revert l. induction k as [|k IH]; intros l H; destruct l as [|a l];
    try discriminate.
  - injection H as ->. reflexivity.
  - cbn [firstn skipn app]. f_equal. apply IH. exact H.
Qed.

Lemma on_ui_keeps_settled e a :
  configRef a = state a -> configRef (on_ui e a) = state (on_ui e a).
Proof.
  intros Href. unfold on_ui.
  destruct (ui_update e (state a)); [reflexivity | exact Href].
Qed.

Lemma commit_drop_settled (World : Type) cfg (st : LoopState World) a :
  configRef a = state a ->
  configRef (commit_drop cfg st a) = state (commit_drop cfg st a).
Proof.
  intros Href. rewrite configRef_commit_drop, state_commit_drop.
  destruct (manualIncrement cfg); [reflexivity | exact Href].
Qed.

Lemma commit_drop_bounded (World : Type) cfg (st : LoopState World) a :
  bounded (state a) -> 0 <= currentSeq st ->
  bounded (state (commit_drop cfg st a)).
Proof.
  intros Hb Hs. rewrite state_commit_drop.
  destruct (manualIncrement cfg); [|exact Hb].
  apply count_update_bounded; assumption.
Qed.

Lemma seq_init_nonneg cfg : bounded cfg -> 0 <= seq_init cfg.
Proof.
  intros (H1 & _ & _ & H4). unfold seq_init.
  destruct (manualIncrement cfg); assumption.
Qed.

Lemma seq_next_nonneg cfg cs : 0 <= cs -> 0 <= seq_next cfg cs.
Proof. intros H. unfold seq_next. destruct (manualIncrement cfg); lia. Qed.

Section AsyncInvariants.

Variable World : Type.
Variable invoke : World -> string -> Cmd -> World * Outcome.
Variable dateNow : World -> Z.
Variable localeTimeString : World -> string.

Local Abbreviation loop_body' := (loop_body World invoke dateNow localeTimeString).
Local Abbreviation arun := (async_run World invoke dateNow localeTimeString).
Local Abbreviation astep := (async_step World invoke dateNow localeTimeString).

(** A property of the machine kept by every event holds after any
    sequence of events. *)
Lemma async_run_invariant (P : Sys World -> Prop) :
  (forall ev y, P y -> P (astep ev y)) ->
  forall evs y, P y -> P (arun evs y).
Proof.
  intros Hstep evs. induction evs as [|ev evs IH]; intros y HP.
  - exact HP.
  - unfold async_run in *. cbn [fold_left]. apply IH, Hstep, HP.
Qed.

Lemma resume_ok k y : async_ok y -> async_ok (resume World invoke dateNow localeTimeString k y).
Proof.
  intros Hok. pose proof Hok as (Href & Hb & Hl & Hp). unfold resume.
  destruct (nth_error (sys_pending y) k) as [sp|] eqn:Hk; [|exact Hok].
  assert (Hsp : suspended_ok sp).
  { apply nth_error_In in Hk. exact (proj1 (Forall_forall _ _) Hp sp Hk). }
  destruct Hsp as (Hcfg & Hcs & Hi).
  destruct (sp_rest sp) as [|p rest]; [exact Hok|].
  assert (Hseq : 0 <= currentSeq (loop_body' (sp_cfg sp) (sp_i sp) p
                                    (mkLoop (sys_env y) (idCounter (sys_app y))
                                            (sp_newLogs sp) (sp_currentSeq sp)))).
  { rewrite loop_body_currentSeq. apply seq_next_nonneg. exact Hcs. }
  destruct rest as [|q rest].
  - unfold async_ok. cbn [sys_app sys_pending].
    split; [apply commit_drop_settled; exact Href|].
    split; [apply commit_drop_bounded; [exact Hb | exact Hseq]|].
    split.
    + rewrite logs_commit_drop, length_firstn. apply Nat.le_min_l.
    + unfold remove_nth. apply Forall_app. split.
      * apply Forall_firstn_keeps. exact Hp.
      * apply Forall_skipn_keeps. exact Hp.
  - unfold async_ok. cbn [sys_app sys_pending with_idCounter configRef state logs].
    split; [exact Href|]. split; [exact Hb|]. split; [exact Hl|].
    unfold replace_nth. apply Forall_app. split.
    + apply Forall_firstn_keeps. exact Hp.
    + constructor.
      * unfold suspended_ok. cbn [sp_cfg sp_currentSeq sp_i].
        split; [exact Hcfg|]. split; [exact Hseq | lia].
      * apply Forall_skipn_keeps. exact Hp.
Qed.

Lemma async_step_ok ev y : async_ok y -> async_ok (astep ev y).
Proof.
  intros Hok. destruct ev as [e|payload|w'|k]; cbn [async_step].
  - destruct Hok as (Href & Hb & Hl & Hp). unfold async_ok. cbn [sys_app sys_pending].
    split; [apply on_ui_keeps_settled; exact Href|].
    split; [apply on_ui_bounded; exact Hb|].
    split; [rewrite logs_after_ui; exact Hl | exact Hp].
  - pose proof Hok as (Href & Hb & Hl & Hp).
    destruct payload as [ps| |ps|]; cbn [begin_event]; try exact Hok.
    destruct ps as [|p ps]; [exact Hok|].
    unfold async_ok. cbn [sys_app sys_pending setIsDragOver configRef state logs].
    split; [exact Href|]. split; [exact Hb|]. split; [exact Hl|].
    apply Forall_app. split; [exact Hp|].
    constructor; [|constructor].
    unfold suspended_ok. cbn [sp_cfg sp_currentSeq sp_i].
    rewrite Href. split; [exact Hb|].
    split; [apply seq_init_nonneg; exact Hb | lia].
  - exact Hok.
  - apply resume_ok. exact Hok.
Qed.

Lemma async_reachable_ok evs w0 : async_ok (arun evs (mkSys initial_app w0 [])).
Proof.
  apply (async_run_invariant async_ok async_step_ok).
  unfold async_ok, bounded. cbn.
  split; [reflexivity|]. split; [lia|]. split; [lia | constructor].
Qed.

End AsyncInvariants.

(** X14. The ranges, the cap and the freshness of the snapshot survive
    every interleaving.  After any sequence of events of the asynchronous
    machine (controls, drops started while others are in flight, promise
    resolutions in any order, changes of the world), [configRef] holds the
    current state, [serialStart], [trimCount] and the stored counter are
    not negative, [serialPad] is at least 1, and the log has at most 50
    entries. *)
Theorem async_state_stays_in_range
        (World : Type)
        (invoke : World -> string -> Cmd -> World * Outcome)
        (dateNow : World -> Z) (localeTimeString : World -> string)
        (evs : list (AsyncEvent World)) (w0 : World) :
  let a := sys_app (async_run World invoke dateNow localeTimeString evs
                              (mkSys initial_app w0 [])) in
  configRef a = state a
  /\ 0 <= serialStart (state a)
  /\ 1 <= serialPad (state a)
  /\ 0 <= trimCount (state a)
  /\ 0 <= currentManualCount (state a)
  /\ (List.length (logs a) <= 50)%nat.
Proof.
  destruct (async_reachable_ok World invoke dateNow localeTimeString evs w0)
    as (Href & (H1 & H2 & H3 & H4) & Hl & _).
  cbn zeta.
  exact (conj Href (conj H1 (conj H2 (conj H3 (conj H4 Hl))))).
Qed.

(** *** Log ids under interleaving *)

Lemma id_below_weaken k k' e : k <= k' -> id_below k e -> id_below k' e.
Proof.
  intros Hk (now & c & Hid & Hc). exists now, c. split; [exact Hid | lia].
Qed.

Lemma fresh_id k l e now :
  0 <= k -> Forall (id_below k) l -> le_id e = log_id now k ->
  ~ In (le_id e) (map le_id l).
Proof.
  intros Hk Hall Hid Hin.
  apply in_map_iff in Hin as (e' & Heq & Hin).
  destruct (proj1 (Forall_forall _ _) Hall e' Hin) as (now' & c' & Hid' & Hc').
  rewrite Hid, Hid' in Heq. apply log_id_counter_inj in Heq; lia.
Qed.

Lemma in_firstn_in (A : Type) n : forall (l : list A) a,
  In a (firstn n l) -> In a l.
Proof.
  induction n as [|n IH]; intros l a H.
  - contradiction.
  - destruct l as [|b l]; [contradiction|].
    cbn [firstn] in H. destruct H as [->|H]; [left; reflexivity|].
    right. apply IH. exact H.
Qed.

Lemma NoDup_map_firstn_app (A B : Type) (f : A -> B) n : forall X Y,
  NoDup (map f (X ++ Y)) -> NoDup (map f (firstn n X ++ Y)).
Proof.
  induction n as [|n IH]; intros X Y H.
  - cbn [firstn app]. rewrite map_app in H. exact (NoDup_app_remove_l _ _ H).
  - destruct X as [|x X]; [exact H|].
    cbn [firstn app map] in *. inversion H as [|? ? Hnotin Hrest]; subst.
    constructor; [|apply IH; exact Hrest].
    intros Hin. apply Hnotin.
    apply in_map_iff in Hin as (a & Heq & Hin). apply in_map_iff.
    exists a. split; [exact Heq|].
    apply in_app_iff in Hin as [Hin|Hin]; apply in_app_iff.
    + left. exact (in_firstn_in _ _ _ _ Hin).
    + right. exact Hin.
Qed.

Lemma Forall_firstn_app (A : Type) (P : A -> Prop) n (X Y : list A) :
  Forall P (X ++ Y) -> Forall P (firstn n X ++ Y).
Proof.
  intros H. apply Forall_app in H as (HX & HY). apply Forall_app.
  split; [apply Forall_firstn_keeps; exact HX | exact HY].
Qed.

Lemma concat_newLogs_cut (F S : list Suspended) sp :
  List.concat (map sp_newLogs (F ++ sp :: S))
  = (List.concat (map sp_newLogs F)
     ++ sp_newLogs sp ++ List.concat (map sp_newLogs S))%list.
Proof. rewrite map_app, concat_app. reflexivity. Qed.

Section AsyncIdFacts.

Variable World : Type.
Variable invoke : World -> string -> Cmd -> World * Outcome.
Variable dateNow : World -> Z.
Variable localeTimeString : World -> string.

Local Abbreviation loop_body' := (loop_body World invoke dateNow localeTimeString).
Local Abbreviation arun := (async_run World invoke dateNow localeTimeString).
Local Abbreviation astep := (async_step World invoke dateNow localeTimeString).

Lemma resume_ids_ok k y :
  ids_ok y -> ids_ok (resume World invoke dateNow localeTimeString k y).
Proof.
  intros Hok. pose proof Hok as (Hpos & Hall & Hnd). unfold resume.
  destruct (nth_error (sys_pending y) k) as [sp|] eqn:Hk; [|exact Hok].
  destruct (sp_rest sp) as [|p rest] eqn:Hrest; [exact Hok|].
  set (st0 := mkLoop (sys_env y) (idCounter (sys_app y))
                     (sp_newLogs sp) (sp_currentSeq sp)).
  set (st := loop_body' (sp_cfg sp) (sp_i sp) p st0).
  set (e := iteration_entry invoke dateNow localeTimeString
                            (sp_cfg sp) (sp_i sp) p st0).
  assert (Hnew : newLogs st = e :: sp_newLogs sp).
  { unfold st, e. rewrite loop_body_entry. reflexivity. }
  assert (Hcount : logIdCounter st = idCounter (sys_app y) + 1).
  { unfold st. rewrite loop_body_logIdCounter. reflexivity. }
  assert (Hid : le_id e = log_id (dateNow (world st)) (idCounter (sys_app y))).
  { unfold e, st. rewrite iteration_entry_id. reflexivity. }
  pose proof (nth_error_cut _ _ _ _ Hk) as Hcut.
  set (F := firstn k (sys_pending y)) in *.
  set (S := skipn (Datatypes.S k) (sys_pending y)) in *.
  unfold entry_pool in Hall, Hnd. rewrite Hcut, concat_newLogs_cut in Hall, Hnd.
  assert (Hfresh : ~ In (le_id e)
                     (map le_id (logs (sys_app y)
                                 ++ List.concat (map sp_newLogs F)
                                 ++ sp_newLogs sp
                                 ++ List.concat (map sp_newLogs S)))).
  { exact (fresh_id _ _ _ _ Hpos Hall Hid). }
  assert (Hall' : Forall (id_below (logIdCounter st))
                    (e :: logs (sys_app y)
                       ++ List.concat (map sp_newLogs F)
                       ++ sp_newLogs sp
                       ++ List.concat (map sp_newLogs S))).
  { constructor.
    - exists (dateNow (world st)), (idCounter (sys_app y)).
      split; [exact Hid | lia].
    - eapply Forall_impl; [|exact Hall].
      intros x Hx. apply (id_below_weaken (idCounter (sys_app y))); [lia | exact Hx]. }
  assert (Hnd' : NoDup (map le_id
                    (e :: logs (sys_app y)
                       ++ List.concat (map sp_newLogs F)
                       ++ sp_newLogs sp
                       ++ List.concat (map sp_newLogs S)))).
  { cbn [map]. constructor; assumption. }
  destruct rest as [|q rest].
  - (* the last path: the handler commits and leaves *)
    assert (Hperm : Permutation
                      (e :: logs (sys_app y)
                         ++ List.concat (map sp_newLogs F)
                         ++ sp_newLogs sp
                         ++ List.concat (map sp_newLogs S))
                      ((newLogs st ++ logs (sys_app y))
                         ++ List.concat (map sp_newLogs F)
                         ++ List.concat (map sp_newLogs S))).
    { rewrite Hnew. cbn [app]. apply perm_skip.
      rewrite <- !app_assoc.
      rewrite (app_assoc (logs (sys_app y))).
      rewrite Permutation_app_swap_app.
      rewrite <- !app_assoc. reflexivity. }
    unfold ids_ok, entry_pool. cbn [sys_app sys_pending].
    rewrite idCounter_commit_drop, logs_commit_drop.
    cbn [with_idCounter logs]. unfold remove_nth. fold F. fold S.
    rewrite map_app, concat_app.
    split; [lia|]. split.
    + apply Forall_firstn_app. exact (Permutation_Forall Hperm Hall').
    + apply NoDup_map_firstn_app.
      exact (Permutation_NoDup (Permutation_map le_id Hperm) Hnd').
  - (* more paths: the handler suspends again *)
    assert (Hperm : Permutation
                      (e :: logs (sys_app y)
                         ++ List.concat (map sp_newLogs F)
                         ++ sp_newLogs sp
                         ++ List.concat (map sp_newLogs S))
                      (logs (sys_app y)
                         ++ List.concat (map sp_newLogs F)
                         ++ newLogs st
                         ++ List.concat (map sp_newLogs S))).
    { rewrite Hnew. cbn [app].
      rewrite (app_assoc (logs (sys_app y))).
      rewrite (app_assoc (logs (sys_app y)) _ (e :: _)).
      apply Permutation_cons_app. reflexivity. }
    unfold ids_ok, entry_pool. cbn [sys_app sys_pending with_idCounter idCounter logs].
    unfold replace_nth. fold F. fold S.
    rewrite concat_newLogs_cut. cbn [sp_newLogs].
    split; [lia|]. split.
    + exact (Permutation_Forall Hperm Hall').
    + exact (Permutation_NoDup (Permutation_map le_id Hperm) Hnd').
Qed.

Lemma async_step_ids_ok ev y : ids_ok y -> ids_ok (astep ev y).
Proof.
  intros Hok. destruct ev as [e|payload|w'|k]; cbn [async_step].
  - unfold ids_ok, entry_pool in *. cbn [sys_app sys_pending].
    rewrite idCounter_after_ui, logs_after_ui. exact Hok.
  - destruct payload as [ps| |ps|]; cbn [begin_event]; try exact Hok.
    destruct ps as [|p ps]; [exact Hok|].
    unfold ids_ok, entry_pool in *.
    cbn [sys_app sys_pending setIsDragOver idCounter logs].
    rewrite map_app, concat_app. cbn [map sp_newLogs List.concat].
    rewrite !app_nil_r. exact Hok.
  - exact Hok.
  - apply resume_ids_ok. exact Hok.
Qed.

Lemma async_reachable_ids_ok evs w0 :
  ids_ok (arun evs (mkSys initial_app w0 [])).
Proof.
  apply (async_run_invariant World invoke dateNow localeTimeString
                             ids_ok async_step_ids_ok).
  unfold ids_ok, entry_pool. cbn.
  split; [lia|]. split; constructor.
Qed.

End AsyncIdFacts.

(** X15. Log ids stay unique under every interleaving.  After any
    sequence of events of the asynchronous machine, also with several
    drops in flight whose promises resolve in any order and with a clock
    that repeats or goes back, the ids of the entries in the log are
    pairwise distinct, and distinct from the ids of the entries the
    handlers in flight still hold. *)
Theorem async_log_ids_are_unique
        (World : Type)
        (invoke : World -> string -> Cmd -> World * Outcome)
        (dateNow : World -> Z) (localeTimeString : World -> string)
        (evs : list (AsyncEvent World)) (w0 : World) :
  let y := async_run World invoke dateNow localeTimeString evs
                     (mkSys initial_app w0 []) in
  NoDup (map le_id (logs (sys_app y)))
  /\ NoDup (map le_id (entry_pool y)).
Proof.
  cbn zeta.
  destruct (async_reachable_ids_ok World invoke dateNow localeTimeString evs w0)
    as (_ & _ & Hnd).
  split; [|exact Hnd].
  unfold entry_pool in Hnd. rewrite map_app in Hnd.
  exact (NoDup_app_remove_r _ _ Hnd).
Qed.
